(** * HotQueue: a Redis list used as a FIFO queue or a LIFO stack

    Shallow embedding of [hotqueue.py] (version 0.2.3) and the properties of
    its queue operations.

    The adapter is a thin layer over two collaborators that live outside the
    repository: the Redis client and the message serializer.  Every method is
    embedded as a computation over a [world] that holds the Redis data set
    and the log of the calls made to the collaborators, in a monad with three
    outcomes: the call returns, it raises, or it never returns (a blocking
    pop with nothing to wait for). *)

From Stdlib Require Import ZArith Ascii String List Lia.
From stdpp Require Import gmap strings list fin_maps.

Local Open Scope string_scope.
Local Open Scope list_scope.
Local Open Scope Z_scope.

(** ** Values, exceptions and the world *)

(** The Python values that travel through a queue.  [PyNone] is Python's
    [None], which [get] also uses for "no message". *)
Inductive pyval :=
| PyNone
| PyBool (b : bool)
| PyInt (z : Z)
| PyStr (s : string).

(** Python exceptions, by class.  [KeyboardInterrupt] is the only one the
    adapter names. *)
Inductive exn :=
| KeyboardInterrupt
| Exception (cls : string).

(** A raw payload, as stored in a Redis list. *)
Abbreviation bytes := (list Byte.byte).

(** One call made to a collaborator: a Redis command, a serializer call, or
    the [print] of [consume]. *)
Inductive call :=
| RPUSH (key : string) (v : bytes)
| LPUSH (key : string) (v : bytes)
| LPOP (key : string)
| RPOP (key : string)
| BLPOP (key : string) (timeout : Z)
| BRPOP (key : string) (timeout : Z)
| DEL (key : string)
| LLEN (key : string)
| DUMPS (v : pyval)
| LOADS (raw : bytes)
| PRINT.

(** The key a Redis command addresses, if the call is a Redis command. *)
Definition call_key (c : call) : option string :=
  match c with
  | RPUSH k _ | LPUSH k _ | LPOP k | RPOP k
  | BLPOP k _ | BRPOP k _ | DEL k | LLEN k => Some k
  | DUMPS _ | LOADS _ | PRINT => None
  end.

Record world := World {
  redis : gmap string (list bytes);
  calls : list call
}.

(** The list stored under a key; an absent key reads as the empty list. *)
Definition items (w : world) (k : string) : list bytes :=
  default [] (redis w !! k).

Inductive outcome (A : Type) :=
| Returns (a : A) (w : world)
| Raises (e : exn) (w : world)
| Blocks (w : world).
Arguments Returns {A} a w.
Arguments Raises {A} e w.
Arguments Blocks {A} w.

Definition world_of {A} (o : outcome A) : world :=
  match o with
  | Returns _ w | Raises _ w | Blocks w => w
  end.

Definition M (A : Type) : Type := world -> outcome A.

Definition ret {A} (a : A) : M A := fun w => Returns a w.

Definition raise {A} (e : exn) : M A := fun w => Raises e w.

Definition bind {A B} (m : M A) (k : A -> M B) : M B :=
  fun w =>
    match m w with
    | Returns a w' => k a w'
    | Raises e w' => Raises e w'
    | Blocks w' => Blocks w'
    end.

(** [try: m  except: h]. *)
Definition try_except {A} (m : M A) (h : exn -> M A) : M A :=
  fun w =>
    match m w with
    | Raises e w' => h e w'
    | o => o
    end.

Notation "x <- c1 ;; c2" := (bind c1 (fun x => c2))
  (at level 100, c1 at next level, right associativity).

(** [for x in xs: body(x)]. *)
Fixpoint for_each {A} (body : A -> M unit) (xs : list A) : M unit :=
  match xs with
  | [] => ret tt
  | x :: rest => _ <- body x ;; for_each body rest
  end.

(** ** The Redis client *)

Definition issue (c : call) (w : world) : list call := calls w ++ [c].

(** Redis keeps no empty list: a list that loses its last element is
    removed together with its key. *)
Definition store (k : string) (l : list bytes)
    (db : gmap string (list bytes)) : gmap string (list bytes) :=
  match l with
  | [] => delete k db
  | _ => <[k := l]> db
  end.

(** Splits a list into its front and its last element. *)
Fixpoint unsnoc {A} (l : list A) : option (list A * A) :=
  match l with
  | [] => None
  | x :: rest =>
      match unsnoc rest with
      | None => Some ([], x)
      | Some (front, y) => Some (x :: front, y)
      end
  end.

(** Modelled from the spec: the store collaborator's [push_tail] (Redis
    RPUSH, reached as [Redis.rpush]), which is not in the repository: the
    payload is appended at the tail, the key is created if absent, and the
    new length is the reply. *)
Definition rpush (k : string) (v : bytes) : M Z :=
  fun w =>
    let l := items w k ++ [v] in
    Returns (Z.of_nat (length l))
            (World (<[k := l]> (redis w)) (issue (RPUSH k v) w)).

(** Modelled from the spec: the store collaborator's [push_head] (Redis
    LPUSH, [Redis.lpush]): the payload is inserted at the head. *)
Definition lpush (k : string) (v : bytes) : M Z :=
  fun w =>
    let l := v :: items w k in
    Returns (Z.of_nat (length l))
            (World (<[k := l]> (redis w)) (issue (LPUSH k v) w)).

(** Modelled from the spec: the store collaborator's
    [pop_head_nonblocking] (Redis LPOP, [Redis.lpop]): the head element, or
    nothing when the list is empty or absent. *)
Definition lpop (k : string) : M (option bytes) :=
  fun w =>
    match items w k with
    | [] => Returns None (World (redis w) (issue (LPOP k) w))
    | x :: rest =>
        Returns (Some x) (World (store k rest (redis w)) (issue (LPOP k) w))
    end.

(** Modelled from the spec: the store collaborator's
    [pop_tail_nonblocking] (Redis RPOP, [Redis.rpop]). *)
Definition rpop (k : string) : M (option bytes) :=
  fun w =>
    match unsnoc (items w k) with
    | None => Returns None (World (redis w) (issue (RPOP k) w))
    | Some (front, x) =>
        Returns (Some x) (World (store k front (redis w)) (issue (RPOP k) w))
    end.

(** What a blocking pop does when the list is empty and this client is the
    only one (no producer will push): timeout 0 waits for ever, any other
    timeout elapses and the reply is empty. *)
Definition wait_empty {A} (timeout : Z) : M (option A) :=
  fun w =>
    if timeout =? 0 then Blocks w
    else Returns None w.

(** Modelled from the spec: the store collaborator's [pop_head_blocking]
    (Redis BLPOP, [Redis.blpop]): one call that suspends on the server
    until an element is available or the timeout elapses; the reply is the
    pair of the key and the element, or nothing on timeout.  Redis answers
    a negative timeout with an error, which the client raises. *)
Definition blpop (k : string) (timeout : Z) : M (option (string * bytes)) :=
  fun w =>
    let log := issue (BLPOP k timeout) w in
    if timeout <? 0
    then Raises (Exception "ResponseError") (World (redis w) log)
    else
      match items w k with
      | [] => wait_empty timeout (World (redis w) log)
      | x :: rest => Returns (Some (k, x)) (World (store k rest (redis w)) log)
      end.

(** Modelled from the spec: the store collaborator's [pop_tail_blocking]
    (Redis BRPOP, [Redis.brpop]). *)
Definition brpop (k : string) (timeout : Z) : M (option (string * bytes)) :=
  fun w =>
    let log := issue (BRPOP k timeout) w in
    if timeout <? 0
    then Raises (Exception "ResponseError") (World (redis w) log)
    else
      match unsnoc (items w k) with
      | None => wait_empty timeout (World (redis w) log)
      | Some (front, x) =>
          Returns (Some (k, x)) (World (store k front (redis w)) log)
      end.

(** Modelled from the spec: the store collaborator's [delete] (Redis DEL,
    [Redis.delete]): removes the key whatever it holds; the reply counts the
    keys removed, so an absent key is not an error. *)
Definition delete_key (k : string) : M Z :=
  fun w =>
    Returns (match redis w !! k with Some _ => 1 | None => 0 end)
            (World (delete k (redis w)) (issue (DEL k) w)).

(** Modelled from the spec: the store collaborator's [length] (Redis LLEN,
    [Redis.llen]): a read of the number of elements. *)
Definition llen (k : string) : M Z :=
  fun w =>
    Returns (Z.of_nat (length (items w k)))
            (World (redis w) (issue (LLEN k) w)).

(** What [getattr(self.__redis, name)] finds for the method names the two
    classes carry. *)
Inductive redis_method :=
| Pop (f : string -> M (option bytes))
| BlockingPop (f : string -> Z -> M (option (string * bytes))).

Definition redis_getattr (attr : string) : option redis_method :=
  if String.eqb attr "lpop" then Some (Pop lpop)
  else if String.eqb attr "rpop" then Some (Pop rpop)
  else if String.eqb attr "blpop" then Some (BlockingPop blpop)
  else if String.eqb attr "brpop" then Some (BlockingPop brpop)
  else None.

(** ** The serializer *)

(** A serializer is any object with [dumps] and [loads]; either may raise. *)
Record serializer_t := Serializer {
  dumps : pyval -> exn + bytes;
  loads : bytes -> exn + pyval
}.

Definition call_dumps (s : serializer_t) (msg : pyval) : M bytes :=
  fun w =>
    let w' := World (redis w) (issue (DUMPS msg) w) in
    match dumps s msg with
    | inr raw => Returns raw w'
    | inl e => Raises e w'
    end.

Definition call_loads (s : serializer_t) (raw : bytes) : M pyval :=
  fun w =>
    let w' := World (redis w) (issue (LOADS raw) w) in
    match loads s raw with
    | inr v => Returns v w'
    | inl e => Raises e w'
    end.

Definition print : M unit :=
  fun w => Returns tt (World (redis w) (issue PRINT w)).

(** ** The adapter *)

(** Python's ['hotqueue:%s' % name] for a string [name]: the first [%s] of
    the format is replaced by the argument. *)
Fixpoint percent_s (fmt : string) (arg : string) : string :=
  match fmt with
  | String "%"%char (String "s"%char rest) => arg +:+ rest
  | String c rest => String c (percent_s rest arg)
  | EmptyString => EmptyString
  end.

Definition key_for_name (name : string) : string :=
  percent_s "hotqueue:%s" name.

(** The two classes of the module. *)
Inductive pyclass := HotQueue | HotStack.

Definition redis_block_pop_method (c : pyclass) : string :=
  match c with
  | HotQueue => "blpop"
  | HotStack => "brpop"
  end.

Definition redis_pop_method (c : pyclass) : string :=
  match c with
  | HotQueue => "lpop"
  | HotStack => "rpop"
  end.

(** An instance: its class and the attributes [__init__] sets.  The Redis
    connection it holds is the [redis] component of the world. *)
Record instance := Instance {
  class_of : pyclass;
  name : string;
  serializer : serializer_t
}.

(** [__init__]; [pickle] is the module the code falls back on. *)
Definition __init__ (pickle : serializer_t) (c : pyclass) (name : string)
    (serializer : option serializer_t) : instance :=
  match serializer with
  | Some s => Instance c name s
  | None => Instance c name pickle
  end.

Definition key (self : instance) : string := key_for_name (name self).

Definition __len__ (self : instance) : M Z := llen (key self).

Definition clear (self : instance) : M unit :=
  _ <- delete_key (key self) ;; ret tt.

Definition get (self : instance) (block : bool) (timeout : option Z)
    : M pyval :=
  msg <- (if block then
            let timeout := match timeout with None => 0 | Some t => t end in
            match redis_getattr (redis_block_pop_method (class_of self)) with
            | Some (BlockingPop f) =>
                msg <- f (key self) timeout ;;
                ret (match msg with
                     | Some (_, raw) => Some raw
                     | None => None
                     end)
            | Some (Pop _) => raise (Exception "TypeError")
            | None => raise (Exception "AttributeError")
            end
          else
            match redis_getattr (redis_pop_method (class_of self)) with
            | Some (Pop f) => f (key self)
            | Some (BlockingPop _) => raise (Exception "TypeError")
            | None => raise (Exception "AttributeError")
            end) ;;
  match msg with
  | Some raw => call_loads (serializer self) raw
  | None => ret PyNone
  end.

Definition put (self : instance) (msgs : list pyval) : M unit :=
  for_each (fun msg =>
              msg <- call_dumps (serializer self) msg ;;
              _ <- rpush (key self) msg ;;
              ret tt) msgs.

Definition put_head (self : instance) (msgs : list pyval) : M unit :=
  for_each (fun msg =>
              msg <- call_dumps (serializer self) msg ;;
              _ <- lpush (key self) msg ;;
              ret tt) msgs.

(** The keyword arguments of [get], as [consume] receives them in its
    [kwargs] dictionary: a field is [None] when the keyword is not given. *)
Record get_kwargs := Kwargs {
  kw_block : option bool;
  kw_timeout : option Z
}.

(** [kwargs.setdefault('block', d)]. *)
Definition setdefault_block (kwargs : get_kwargs) (d : bool) : get_kwargs :=
  match kw_block kwargs with
  | Some _ => kwargs
  | None => Kwargs (Some d) (kw_timeout kwargs)
  end.

(** [self.get] called with the dictionary [kwargs]: a keyword that is not
    given takes the default of [get]'s signature. *)
Definition get_with (self : instance) (kwargs : get_kwargs) : M pyval :=
  get self (default false (kw_block kwargs)) (kw_timeout kwargs).

(** The generator object [consume] returns: not started yet, suspended at
    its [yield], or finished. *)
Inductive generator :=
| Created (kwargs : get_kwargs)
| Suspended (kwargs : get_kwargs)
| Finished.

Inductive step :=
| Yield (msg : pyval)
| StopIteration.

Definition consume (self : instance) (kwargs : get_kwargs) : generator :=
  Created kwargs.

(** One turn of the [while True] loop, inside the [try]. *)
Definition consume_loop (self : instance) (kwargs : get_kwargs)
    : M (step * generator) :=
  try_except
    (msg <- get_with self kwargs ;;
     match msg with
     | PyNone => ret (StopIteration, Finished)
     | _ => ret (Yield msg, Suspended kwargs)
     end)
    (fun e =>
       match e with
       | KeyboardInterrupt => _ <- print ;; ret (StopIteration, Finished)
       | _ => raise e
       end).

(** [next(generator)]: runs the body up to the next [yield] or to its end. *)
Definition next (self : instance) (g : generator) : M (step * generator) :=
  match g with
  | Created kwargs => consume_loop self (setdefault_block kwargs true)
  | Suspended kwargs => consume_loop self kwargs
  | Finished => ret (StopIteration, Finished)
  end.

(** How a [for msg in generator] loop over [consume] ends. *)
Inductive ending :=
| Exhausted
| Failed (e : exn)
| Stuck
| OutOfFuel.

Record run := Run {
  yielded : list pyval;
  ending_of : ending;
  final : world
}.

(** [for msg in g], collecting the messages; [fuel] bounds the turns. *)
Fixpoint iterate (fuel : nat) (self : instance) (g : generator) (w : world)
    : run :=
  match fuel with
  | O => Run [] OutOfFuel w
  | S fuel' =>
      match next self g w with
      | Returns (Yield msg, g') w' =>
          let r := iterate fuel' self g' w' in
          Run (msg :: yielded r) (ending_of r) (final r)
      | Returns (StopIteration, _) w' => Run [] Exhausted w'
      | Raises e w' => Run [] (Failed e) w'
      | Blocks w' => Run [] Stuck w'
      end
  end.

(** [n] successive calls of [get] with the same arguments. *)
Fixpoint gets (self : instance) (block : bool) (timeout : option Z) (n : nat)
    : M (list pyval) :=
  match n with
  | O => ret []
  | S n' =>
      msg <- get self block timeout ;;
      rest <- gets self block timeout n' ;;
      ret (msg :: rest)
  end.

(** ** A serializer for text messages

    A small serializer with which the statements below are run on concrete
    queues: a [str] is stored as its bytes, anything else is refused. *)
Definition text_dumps (msg : pyval) : exn + bytes :=
  match msg with
  | PyStr s => inr (list_byte_of_string s)
  | _ => inl (Exception "TypeError")
  end.

Definition text_loads (raw : bytes) : exn + pyval :=
  inr (PyStr (string_of_list_byte raw)).

Definition text : serializer_t := Serializer text_dumps text_loads.

(** The empty data set, before any call. *)
Definition fresh : world := World ∅ [].

(** ** Properties *)

(** [msgs] serialize to [raws], one by one. *)
Definition serialized (s : serializer_t) (msgs : list pyval)
    (raws : list bytes) : Prop :=
  Forall2 (fun msg raw => dumps s msg = inr raw) msgs raws.

(** The serializer gives back every message of [msgs]. *)
Definition round_trips (s : serializer_t) (msgs : list pyval) : Prop :=
  Forall (fun msg => exists raw, dumps s msg = inr raw /\ loads s raw = inr msg)
         msgs.

(** A call that is a Redis command addresses the key [k]. *)
Definition on_key (k : string) (c : call) : Prop :=
  match call_key c with
  | Some k' => k' = k
  | None => True
  end.

(** Whatever the outcome, the computation only extends the log, and every
    Redis command it issues addresses [k]. *)
Definition addresses {A} (k : string) (m : M A) : Prop :=
  forall w, exists new,
    calls (world_of (m w)) = calls w ++ new /\ Forall (on_key k) new.

(** [raws] deserialize to [msgs], one by one. *)
Definition deserialized (s : serializer_t) (msgs : list pyval)
    (raws : list bytes) : Prop :=
  Forall2 (fun msg raw => loads s raw = inr msg) msgs raws.

(** The Redis command a [get] issues. *)
Definition pop_call (self : instance) (block : bool) (timeout : option Z)
    : call :=
  match class_of self, block with
  | HotQueue, false => LPOP (key self)
  | HotQueue, true => BLPOP (key self) (default 0 timeout)
  | HotStack, false => RPOP (key self)
  | HotStack, true => BRPOP (key self) (default 0 timeout)
  end.

(** The end of the list a class pops: the element taken and what is left. *)
Definition pop_end (c : pyclass) (l : list bytes)
    : option (bytes * list bytes) :=
  match c with
  | HotQueue =>
      match l with
      | [] => None
      | x :: rest => Some (x, rest)
      end
  | HotStack =>
      match unsnoc l with
      | None => None
      | Some (front, x) => Some (x, front)
      end
  end.

(** The timeout is one the store accepts. *)
Definition accepted (block : bool) (timeout : option Z) : Prop :=
  block = false \/ 0 <= default 0 timeout.

(** How a run of the loop relates to the successive [get]s: [w1] is the
    world after the [get]s that produced the yielded messages. *)
Definition ended_by (self : instance) (block : bool) (timeout : option Z)
    (fuel : nat) (w1 : world) (r : run) : Prop :=
  match ending_of r with
  | Exhausted =>
      get self block timeout w1 = Returns PyNone (final r)
      \/ exists w2,
           get self block timeout w1 = Raises KeyboardInterrupt w2
           /\ final r = World (redis w2) (issue PRINT w2)
  | Failed e =>
      e <> KeyboardInterrupt /\ get self block timeout w1 = Raises e (final r)
  | Stuck => get self block timeout w1 = Blocks (final r)
  | OutOfFuel => final r = w1 /\ fuel = length (yielded r)
  end.

(** Two queues over the text serializer, and two messages. *)
Definition jobs : instance := Instance HotQueue "jobs" text.

Definition undo : instance := Instance HotStack "undo" text.

Definition msg_x : pyval := PyStr "x".

Definition msg_y : pyval := PyStr "y".

(** The world after [jobs.put("x", "y")] on the empty data set, and the
    world one [jobs.get()] later. *)
Definition loaded : world := world_of (put jobs [msg_x; msg_y] fresh).

Definition served : world := world_of (get jobs false None loaded).

(** ** The worker decorator *)

(** The function a [worker] decorates: it receives one message. *)
Definition handler : Type := pyval -> M unit.

(** The body of [wrapper]: [for msg in g: worker(msg)], the messages taken
    from the generator one [next] at a time and each handed to the function
    before the next is asked for.  An exception of the function leaves the
    loop; [fuel] bounds the turns, and [None] says it ran out. *)
Fixpoint wrapper_loop (fuel : nat) (self : instance) (worker : handler)
    (g : generator) (w : world) : option (outcome unit) :=
  match fuel with
  | O => None
  | S fuel' =>
      match next self g w with
      | Returns (Yield msg, g') w' =>
          match worker msg w' with
          | Returns _ w'' => wrapper_loop fuel' self worker g' w''
          | Raises e w'' => Some (Raises e w'')
          | Blocks w'' => Some (Blocks w'')
          end
      | Returns (StopIteration, _) w' => Some (Returns tt w')
      | Raises e w' => Some (Raises e w')
      | Blocks w' => Some (Blocks w')
      end
  end.

(** A call of the wrapped function, with its fuel. *)
Definition wrapper_t : Type := nat -> world -> option (outcome unit).

(** [decorator(worker)]: the [wrapper] closure over [self], [kwargs] and
    the function ([wraps] copies the function's name and docstring only). *)
Definition decorator (self : instance) (kwargs : get_kwargs)
    (worker : handler) : wrapper_t :=
  fun fuel => wrapper_loop fuel self worker (consume self kwargs).

(** What [worker] returns: the wrapper when it is given the function, the
    decorator when it is given keyword arguments alone. *)
Inductive decorated :=
| Wrapper (call : wrapper_t)
| Decorator (apply : handler -> wrapper_t).

(** [worker]; [decorator] takes one positional argument, so more than one
    is a [TypeError]. *)
Definition worker (self : instance) (args : list handler)
    (kwargs : get_kwargs) : exn + decorated :=
  match args with
  | [] => inr (Decorator (decorator self kwargs))
  | [f] => inr (Wrapper (decorator self kwargs f))
  | _ => inl (Exception "TypeError")
  end.

(** ** More vocabulary for the properties *)

(** Whatever the outcome, the computation leaves what the key [k] holds. *)
Definition preserves {A} (k : string) (m : M A) : Prop :=
  forall w, redis (world_of (m w)) !! k = redis w !! k.

(** What a caller sees of an outcome besides the log: the value or the
    exception, and the data set. *)
Definition seen {A} (o : outcome A)
    : option (exn + A) * gmap string (list bytes) :=
  match o with
  | Returns a w => (Some (inr a), redis w)
  | Raises e w => (Some (inl e), redis w)
  | Blocks w => (None, redis w)
  end.

(** The list that a class pops in the order [raws]. *)
Definition pop_order (c : pyclass) (raws : list bytes) : list bytes :=
  match c with
  | HotQueue => raws
  | HotStack => rev raws
  end.

(** The calls of a [put] or [put_head] of [msgs] that serialize to [raws]:
    [push] is the Redis command. *)
Definition push_calls (push : bytes -> call) (msgs : list pyval)
    (raws : list bytes) : list call :=
  flat_map (fun p => [DUMPS (fst p); push (snd p)]) (combine msgs raws).

(** The keyword arguments end the loop on an empty list: [get] does not
    block, or blocks for a positive time. *)
Definition gives_up (block : bool) (timeout : option Z) : Prop :=
  block = false \/ exists t, timeout = Some t /\ 0 < t.

(** ** A serializer that knows [None]

    [None] is stored as the letter N, a [str] as the letter S and its
    bytes; anything else is refused, and so are other payloads. *)
Definition nullable_dumps (msg : pyval) : exn + bytes :=
  match msg with
  | PyNone => inr (list_byte_of_string "N")
  | PyStr s => inr (list_byte_of_string (String "S"%char s))
  | _ => inl (Exception "TypeError")
  end.

Definition nullable_loads (raw : bytes) : exn + pyval :=
  match string_of_list_byte raw with
  | String "N"%char EmptyString => inr PyNone
  | String "S"%char s => inr (PyStr s)
  | _ => inl (Exception "ValueError")
  end.

Definition nullable : serializer_t := Serializer nullable_dumps nullable_loads.

(** More queues: one over [nullable], and a second FIFO queue over [text]
    to forward messages to. *)
Definition inbox : instance := Instance HotQueue "inbox" nullable.

Definition archive : instance := Instance HotQueue "archive" text.

(** A serializer whose [loads] is interrupted from the keyboard, and a
    queue over it. *)
Definition interrupted : serializer_t :=
  Serializer text_dumps (fun _ => inl KeyboardInterrupt).

Definition console : instance := Instance HotQueue "console" interrupted.

(** A function for [worker] that forwards each message to another queue. *)
Definition forward (to : instance) : handler := fun msg => put to [msg].

(** A function for [worker] that fails on every message. *)
Definition failing (e : exn) : handler := fun _ => raise e.

(** The [printer] of the docstring of [worker]: it prints each message. *)
Definition printer : handler := fun _ => print.

(** The list of [inbox] written by a producer that uses [text]; the list of
    [inbox] holding a [None] between two messages; and the list of
    [console] holding one message. *)
Definition mismatched : world :=
  world_of (put (Instance HotQueue "inbox" text) [msg_x] fresh).

Definition mixed : world :=
  world_of (put inbox [PyStr "a"; PyNone; PyStr "b"] fresh).

Definition typed : world := world_of (put console [msg_x] fresh).

(** *** The storage key *)

Lemma append_empty_r (s : string) : s +:+ EmptyString = s.
Proof.
  induction s as [|c s IH]; [reflexivity |].
  change (String c (s +:+ EmptyString) = String c s). now rewrite IH.
Qed.

Lemma key_for_name_prefix (n : string) : key_for_name n = "hotqueue:" +:+ n.
Proof.
  change (key_for_name n) with ("hotqueue:" +:+ (n +:+ EmptyString)).
  now rewrite append_empty_r.
Qed.

(** *** The log of calls *)

Section Addresses.
Variable k : string.

Lemma addresses_ret {A} (a : A) : addresses k (ret a).
Proof. intros w. exists []. simpl. now rewrite app_nil_r. Qed.

Lemma addresses_raise {A} (e : exn) : addresses k (@raise A e).
Proof. intros w. exists []. simpl. now rewrite app_nil_r. Qed.

Lemma addresses_bind {A B} (m : M A) (f : A -> M B) :
  addresses k m -> (forall a, addresses k (f a)) -> addresses k (bind m f).
Proof.
  intros Hm Hf w. unfold bind.
  destruct (Hm w) as [n1 [E1 F1]].
  destruct (m w) as [a w'|e w'|w']; simpl in E1; eauto.
  destruct (Hf a w') as [n2 [E2 F2]].
  exists (n1 ++ n2). split.
  - now rewrite E2, E1, app_assoc.
  - now apply Forall_app.
Qed.

Lemma addresses_try_except {A} (m : M A) (h : exn -> M A) :
  addresses k m -> (forall e, addresses k (h e)) ->
  addresses k (try_except m h).
Proof.
  intros Hm Hh w. unfold try_except.
  destruct (Hm w) as [n1 [E1 F1]].
  destruct (m w) as [a w'|e w'|w']; simpl in E1; eauto.
  destruct (Hh e w') as [n2 [E2 F2]].
  exists (n1 ++ n2). split.
  - now rewrite E2, E1, app_assoc.
  - now apply Forall_app.
Qed.

Lemma addresses_for_each {A} (body : A -> M unit) (xs : list A) :
  (forall x, addresses k (body x)) -> addresses k (for_each body xs).
Proof.
  intros Hb. induction xs as [|x xs IH]; simpl.
  - apply addresses_ret.
  - apply addresses_bind; auto.
Qed.

Lemma addresses_one {A} (m : M A) (c : call) :
  on_key k c ->
  (forall w, calls (world_of (m w)) = issue c w) ->
  addresses k m.
Proof.
  intros Hc Hm w. exists [c]. split; [apply Hm | now constructor].
Qed.
End Addresses.

Lemma addresses_rpush k v : addresses k (rpush k v).
Proof. apply (addresses_one _ _ (RPUSH k v)); [reflexivity | reflexivity]. Qed.

Lemma addresses_lpush k v : addresses k (lpush k v).
Proof. apply (addresses_one _ _ (LPUSH k v)); [reflexivity | reflexivity]. Qed.

Lemma addresses_lpop k : addresses k (lpop k).
Proof.
  apply (addresses_one _ _ (LPOP k)); [reflexivity |].
  intros w. unfold lpop. now destruct (items w k).
Qed.

Lemma addresses_rpop k : addresses k (rpop k).
Proof.
  apply (addresses_one _ _ (RPOP k)); [reflexivity |].
  intros w. unfold rpop. now destruct (unsnoc (items w k)) as [[? ?]|].
Qed.

Lemma addresses_blpop k t : addresses k (blpop k t).
Proof.
  apply (addresses_one _ _ (BLPOP k t)); [reflexivity |].
  intros w. unfold blpop, wait_empty.
  destruct (t <? 0); [reflexivity |].
  destruct (items w k); [| reflexivity]. now destruct (t =? 0).
Qed.

Lemma addresses_brpop k t : addresses k (brpop k t).
Proof.
  apply (addresses_one _ _ (BRPOP k t)); [reflexivity |].
  intros w. unfold brpop, wait_empty.
  destruct (t <? 0); [reflexivity |].
  destruct (unsnoc (items w k)) as [[? ?]|]; [reflexivity |].
  now destruct (t =? 0).
Qed.

Lemma addresses_delete_key k : addresses k (delete_key k).
Proof. apply (addresses_one _ _ (DEL k)); [reflexivity | reflexivity]. Qed.

Lemma addresses_llen k : addresses k (llen k).
Proof. apply (addresses_one _ _ (LLEN k)); [reflexivity | reflexivity]. Qed.

Lemma addresses_dumps k s msg : addresses k (call_dumps s msg).
Proof.
  apply (addresses_one _ _ (DUMPS msg)); [exact I |].
  intros w. unfold call_dumps. now destruct (dumps s msg).
Qed.

Lemma addresses_loads k s raw : addresses k (call_loads s raw).
Proof.
  apply (addresses_one _ _ (LOADS raw)); [exact I |].
  intros w. unfold call_loads. now destruct (loads s raw).
Qed.

Lemma addresses_print k : addresses k print.
Proof. apply (addresses_one _ _ PRINT); [exact I | reflexivity]. Qed.

Create HintDb log_db.
#[local] Hint Resolve addresses_ret addresses_raise addresses_rpush
  addresses_lpush addresses_lpop addresses_rpop addresses_blpop
  addresses_brpop addresses_delete_key addresses_llen addresses_dumps
  addresses_loads addresses_print : log_db.

Lemma addresses_get self block timeout :
  addresses (key self) (get self block timeout).
Proof.
  unfold get. apply addresses_bind.
  - destruct block, (class_of self); simpl;
      try apply addresses_bind; intros; auto with log_db.
  - intros [raw|]; auto with log_db.
Qed.

Lemma addresses_put self msgs : addresses (key self) (put self msgs).
Proof.
  apply addresses_for_each. intros msg.
  repeat (apply addresses_bind; intros); auto with log_db.
Qed.

Lemma addresses_put_head self msgs :
  addresses (key self) (put_head self msgs).
Proof.
  apply addresses_for_each. intros msg.
  repeat (apply addresses_bind; intros); auto with log_db.
Qed.

Lemma addresses_consume_loop self kwargs :
  addresses (key self) (consume_loop self kwargs).
Proof.
  apply addresses_try_except.
  - apply addresses_bind; [apply addresses_get |].
    intros []; auto with log_db.
  - intros []; [apply addresses_bind; intros|]; auto with log_db.
Qed.

Lemma addresses_next self g : addresses (key self) (next self g).
Proof.
  destruct g; simpl; auto using addresses_consume_loop with log_db.
Qed.

(** C4. The storage key of a queue named [n] is ['hotqueue:' + n]; two
    instances built with the same name have the same key, whatever their
    class and serializer; and every Redis command that any method issues
    ([__len__], [clear], [get], [put], [put_head], a [next] of [consume])
    addresses that key. *)
Theorem storage_key_is_prefixed_name (self : instance) :
  key self = "hotqueue:" +:+ name self
  /\ (forall pickle c1 c2 n s1 s2,
        key (__init__ pickle c1 n s1) = key (__init__ pickle c2 n s2)
        /\ key (__init__ pickle c1 n s1) = "hotqueue:" +:+ n)
  /\ addresses ("hotqueue:" +:+ name self) (__len__ self)
  /\ addresses ("hotqueue:" +:+ name self) (clear self)
  /\ (forall block timeout,
        addresses ("hotqueue:" +:+ name self) (get self block timeout))
  /\ (forall msgs, addresses ("hotqueue:" +:+ name self) (put self msgs))
  /\ (forall msgs, addresses ("hotqueue:" +:+ name self) (put_head self msgs))
  /\ (forall g, addresses ("hotqueue:" +:+ name self) (next self g)).
Proof.
  assert (Hk : key self = "hotqueue:" +:+ name self)
    by apply key_for_name_prefix.
  rewrite <- Hk. repeat apply conj; try reflexivity.
  - intros pickle c1 c2 n s1 s2. unfold key. rewrite <- key_for_name_prefix.
    now destruct s1, s2.
  - apply addresses_llen.
  - unfold clear. apply addresses_bind; intros; auto with log_db.
  - intros. apply addresses_get.
  - intros. apply addresses_put.
  - intros. apply addresses_put_head.
  - intros. apply addresses_next.
Qed.

(** *** What one [get] does to the list *)

Lemma unsnoc_spec {A} (l : list A) :
  match unsnoc l with
  | None => l = []
  | Some (front, x) => l = front ++ [x]
  end.
Proof.
  induction l as [|a l IH]; simpl; [reflexivity |].
  destruct (unsnoc l) as [[front x]|]; subst; reflexivity.
Qed.

Lemma unsnoc_snoc {A} (l : list A) (x : A) : unsnoc (l ++ [x]) = Some (l, x).
Proof.
  induction l as [|a l IH]; simpl; [reflexivity | now rewrite IH].
Qed.

Lemma items_insert k l db log : items (World (<[k := l]> db) log) k = l.
Proof. unfold items. simpl. now rewrite lookup_insert_eq. Qed.

Lemma items_store k l db log : items (World (store k l db) log) k = l.
Proof.
  unfold items, store. simpl. destruct l.
  - now rewrite lookup_delete_eq.
  - now rewrite lookup_insert_eq.
Qed.

Lemma items_log w log k : items (World (redis w) log) k = items w k.
Proof. reflexivity. Qed.

(** [get], call by call: one pop command, then [loads] on what it found. *)
Lemma get_unfold self block timeout w :
  get self block timeout w =
    let log := issue (pop_call self block timeout) w in
    if block && (default 0 timeout <? 0)
    then Raises (Exception "ResponseError") (World (redis w) log)
    else
      match pop_end (class_of self) (items w (key self)) with
      | Some (raw, rest) =>
          call_loads (serializer self) raw
            (World (store (key self) rest (redis w)) log)
      | None =>
          if block && (default 0 timeout =? 0)
          then Blocks (World (redis w) log)
          else Returns PyNone (World (redis w) log)
      end.
Proof.
  unfold get, pop_call, pop_end, bind.
  destruct (class_of self), block; simpl;
    unfold blpop, brpop, lpop, rpop, wait_empty;
    destruct timeout as [t|]; simpl;
    repeat match goal with
           | |- context [?t <? 0] => destruct (t <? 0); simpl
           | |- context [?t =? 0] => destruct (t =? 0); simpl
           | |- context [unsnoc ?l] => destruct (unsnoc l) as [[? ?]|]; simpl
           | |- context [match items ?w ?k with _ => _ end] =>
               destruct (items w k); simpl
           end; reflexivity.
Qed.

Lemma accepted_test block timeout :
  accepted block timeout -> block && (default 0 timeout <? 0) = false.
Proof.
  intros [-> | H]; [reflexivity |].
  destruct block; [| reflexivity]. simpl. now apply Z.ltb_ge.
Qed.

Lemma get_pops self block timeout w raw rest :
  accepted block timeout ->
  pop_end (class_of self) (items w (key self)) = Some (raw, rest) ->
  get self block timeout w =
    call_loads (serializer self) raw
      (World (store (key self) rest (redis w))
             (issue (pop_call self block timeout) w)).
Proof.
  intros Ha Hp. rewrite get_unfold. cbv zeta.
  now rewrite (accepted_test _ _ Ha), Hp.
Qed.

Lemma call_loads_returns s raw v w :
  loads s raw = inr v ->
  call_loads s raw w = Returns v (World (redis w) (issue (LOADS raw) w)).
Proof. intros H. unfold call_loads. now rewrite H. Qed.

(** A [get] that returns leaves one element less, or an empty list empty. *)
Lemma get_returns_length self block timeout w v w' :
  get self block timeout w = Returns v w' ->
  length (items w' (key self)) = Nat.pred (length (items w (key self))).
Proof.
  rewrite get_unfold. cbv zeta.
  destruct (block && (default 0 timeout <? 0)); [discriminate |].
  destruct (pop_end (class_of self) (items w (key self))) as [[raw rest]|] eqn:Hp.
  - unfold call_loads. destruct (loads _ raw); [discriminate |].
    intros [= _ <-]. rewrite items_store.
    unfold pop_end in Hp. destruct (class_of self).
    + destruct (items w (key self)); [discriminate |].
      now injection Hp as _ <-.
    + pose proof (unsnoc_spec (items w (key self))) as Hs.
      destruct (unsnoc (items w (key self))) as [[front x]|]; [| discriminate].
      injection Hp as _ <-. rewrite Hs, length_app. simpl. lia.
  - destruct (block && (default 0 timeout =? 0)); [discriminate |].
    intros [= _ <-]. rewrite items_log. unfold pop_end in Hp.
    destruct (class_of self).
    + now destruct (items w (key self)).
    + pose proof (unsnoc_spec (items w (key self))) as Hs.
      destruct (unsnoc (items w (key self))) as [[front x]|]; [discriminate |].
      now rewrite Hs.
Qed.

Lemma gets_returns_length self block timeout n : forall w vs w',
  gets self block timeout n w = Returns vs w' ->
  length (items w' (key self)) = (length (items w (key self)) - n)%nat.
Proof.
  induction n as [|n IH]; intros w vs w'; simpl.
  - intros [= _ <-]. lia.
  - unfold bind at 1.
    destruct (get self block timeout w) as [v w1|e w1|w1] eqn:Hg;
      try discriminate.
    unfold bind at 1.
    destruct (gets self block timeout n w1) as [vs1 w2|e w2|w2] eqn:Hn;
      try discriminate.
    intros [= _ <-].
    rewrite (IH _ _ _ Hn), (get_returns_length _ _ _ _ _ _ Hg). lia.
Qed.

(** *** What [put] and [put_head] do to the list *)

Lemma put_serialized self msgs raws : forall w,
  serialized (serializer self) msgs raws ->
  exists w',
    put self msgs w = Returns tt w'
    /\ items w' (key self) = items w (key self) ++ raws.
Proof.
  intros w H. revert w. induction H as [|msg raw msgs raws Hd _ IH]; intros w.
  - exists w. split; [reflexivity | now rewrite app_nil_r].
  - unfold put in *. simpl. unfold bind at 1. unfold bind at 1.
    unfold call_dumps. rewrite Hd. unfold bind at 1. unfold rpush, ret.
    match goal with |- context [for_each _ msgs ?w1] =>
      destruct (IH w1) as [w' [E1 E2]]; exists w' end.
    split; [exact E1 |].
    rewrite E2, items_insert. unfold items at 1. simpl.
    now rewrite <- app_assoc.
Qed.

Lemma put_head_serialized self msgs raws : forall w,
  serialized (serializer self) msgs raws ->
  exists w',
    put_head self msgs w = Returns tt w'
    /\ items w' (key self) = rev raws ++ items w (key self).
Proof.
  intros w H. revert w. induction H as [|msg raw msgs raws Hd _ IH]; intros w.
  - now exists w.
  - unfold put_head in *. simpl. unfold bind at 1. unfold bind at 1.
    unfold call_dumps. rewrite Hd. unfold bind at 1. unfold lpush, ret.
    match goal with |- context [for_each _ msgs ?w1] =>
      destruct (IH w1) as [w' [E1 E2]]; exists w' end.
    split; [exact E1 |].
    rewrite E2, items_insert. unfold items at 1. simpl.
    now rewrite <- app_assoc.
Qed.

Lemma put_returns_length self msgs : forall w w',
  put self msgs w = Returns tt w' ->
  length (items w' (key self))
  = (length (items w (key self)) + length msgs)%nat.
Proof.
  unfold put. induction msgs as [|msg msgs IH]; intros w w'; simpl.
  - intros [= <-]. lia.
  - unfold bind at 1. unfold bind at 1. unfold call_dumps.
    destruct (dumps (serializer self) msg) as [e|raw]; [discriminate |].
    unfold bind at 1. unfold rpush, ret. intros H.
    rewrite (IH _ _ H), items_insert, length_app, items_log. simpl. lia.
Qed.

(** *** Draining a list with successive [get]s *)

Lemma round_trips_raws s msgs :
  round_trips s msgs ->
  exists raws, serialized s msgs raws /\ deserialized s msgs raws.
Proof.
  induction 1 as [|msg msgs [raw [Hd Hl]] _ [raws [Hs Hr]]].
  - exists []. split; constructor.
  - exists (raw :: raws). split; constructor; assumption.
Qed.

Lemma Forall2_rev {A B} (P : A -> B -> Prop) l k :
  Forall2 P l k -> Forall2 P (rev l) (rev k).
Proof.
  induction 1; simpl; [constructor |].
  apply Forall2_app; [assumption | repeat constructor; assumption].
Qed.

Lemma gets_from_head self block timeout msgs raws : forall rest w,
  class_of self = HotQueue ->
  accepted block timeout ->
  deserialized (serializer self) msgs raws ->
  items w (key self) = raws ++ rest ->
  exists w',
    gets self block timeout (length msgs) w = Returns msgs w'
    /\ items w' (key self) = rest.
Proof.
  intros rest w Hc Ha H. revert w.
  induction H as [|msg raw msgs raws Hl _ IH]; intros w Hi.
  - exists w. now split.
  - simpl. unfold bind at 1.
    rewrite (get_pops self block timeout w raw (raws ++ rest) Ha)
      by now rewrite Hc, Hi.
    rewrite (call_loads_returns _ _ _ _ Hl). cbv beta iota.
    unfold bind at 1.
    match goal with |- context [gets _ _ _ _ ?w1] =>
      destruct (IH w1) as [w' [E1 E2]] end.
    { simpl. now rewrite items_store. }
    exists w'. now rewrite E1.
Qed.

Lemma gets_from_tail self block timeout msgs raws : forall rest w,
  class_of self = HotStack ->
  accepted block timeout ->
  deserialized (serializer self) msgs raws ->
  items w (key self) = rest ++ rev raws ->
  exists w',
    gets self block timeout (length msgs) w = Returns msgs w'
    /\ items w' (key self) = rest.
Proof.
  intros rest w Hc Ha H. revert w.
  induction H as [|msg raw msgs raws Hl _ IH]; intros w Hi.
  - exists w. simpl in Hi. rewrite app_nil_r in Hi. now split.
  - simpl. unfold bind at 1.
    rewrite (get_pops self block timeout w raw (rest ++ rev raws) Ha).
    2: { rewrite Hc, Hi. simpl. now rewrite app_assoc, unsnoc_snoc. }
    rewrite (call_loads_returns _ _ _ _ Hl). cbv beta iota.
    unfold bind at 1.
    match goal with |- context [gets _ _ _ _ ?w1] =>
      destruct (IH w1) as [w' [E1 E2]] end.
    { simpl. now rewrite items_store. }
    exists w'. now rewrite E1.
Qed.

(** C1. On a FIFO queue ([HotQueue]) whose list is empty, [put] of the
    messages [msgs] returns, and [len(msgs)] calls of the non-blocking
    [get()] then return the messages of [msgs] in their order, leaving the
    list empty; the serializer is taken to give back each message. *)
Theorem fifo_put_then_get_in_order (self : instance) (msgs : list pyval)
    (w : world) :
  class_of self = HotQueue ->
  items w (key self) = [] ->
  round_trips (serializer self) msgs ->
  exists w1 w2,
    put self msgs w = Returns tt w1
    /\ gets self false None (length msgs) w1 = Returns msgs w2
    /\ items w2 (key self) = [].
Proof.
  intros Hc He Hr.
  destruct (round_trips_raws _ _ Hr) as [raws [Hs Hd]].
  destruct (put_serialized self msgs raws w Hs) as [w1 [Hp Hi]].
  rewrite He in Hi. simpl in Hi.
  destruct (gets_from_head self false None msgs raws [] w1 Hc) as [w2 [Hg Hi2]];
    [now left | assumption | now rewrite app_nil_r |].
  now exists w1, w2.
Qed.

(** C2. On a LIFO queue ([HotStack]) whose list is empty, [put] of [msgs]
    followed by [len(msgs)] calls of [get] returns the messages in reverse
    order, for a blocking and for a non-blocking [get]; [put] appends at
    the tail of the list, and a [get] on a list that ends with [raw] issues
    RPOP, or BRPOP when blocking, takes [raw] from the tail and leaves the
    front. *)
Theorem lifo_put_then_get_reversed (self : instance) (msgs : list pyval)
    (w : world) (block : bool) (timeout : option Z) :
  class_of self = HotStack ->
  items w (key self) = [] ->
  round_trips (serializer self) msgs ->
  accepted block timeout ->
  (exists raws w1 w2,
     serialized (serializer self) msgs raws
     /\ put self msgs w = Returns tt w1
     /\ items w1 (key self) = raws
     /\ gets self block timeout (length msgs) w1 = Returns (rev msgs) w2
     /\ items w2 (key self) = [])
  /\ (forall w0 raws,
        serialized (serializer self) msgs raws ->
        exists w1,
          put self msgs w0 = Returns tt w1
          /\ items w1 (key self) = items w0 (key self) ++ raws)
  /\ (forall w0 front raw,
        items w0 (key self) = front ++ [raw] ->
        get self block timeout w0
        = call_loads (serializer self) raw
            (World (store (key self) front (redis w0))
               (issue (if block
                       then BRPOP (key self) (default 0 timeout)
                       else RPOP (key self)) w0))).
Proof.
  intros Hc He Hr Ha. repeat apply conj.
  - destruct (round_trips_raws _ _ Hr) as [raws [Hs Hd]].
    destruct (put_serialized self msgs raws w Hs) as [w1 [Hp Hi]].
    rewrite He in Hi. simpl in Hi.
    destruct (gets_from_tail self block timeout (rev msgs) (rev raws) [] w1 Hc Ha)
      as [w2 [Hg Hi2]].
    + now apply Forall2_rev.
    + now rewrite rev_involutive.
    + rewrite length_rev in Hg. now exists raws, w1, w2.
  - intros w0 raws Hs. apply put_serialized, Hs.
  - intros w0 front raw Hi.
    rewrite (get_pops self block timeout w0 raw front Ha)
      by now rewrite Hc, Hi; simpl; rewrite unsnoc_snoc.
    unfold pop_call. rewrite Hc. now destruct block.
Qed.

(** C3. On any queue whose list is empty, after a [put] of [k] messages and
    [j <= k] calls of [get] that return, [__len__] returns [k - j]; and
    [__len__] on any world issues LLEN alone and leaves the data set as it
    is. *)
Theorem len_after_put_and_get (self : instance) (msgs : list pyval)
    (block : bool) (timeout : option Z) (j : nat) (vs : list pyval)
    (w w1 w2 : world) :
  items w (key self) = [] ->
  put self msgs w = Returns tt w1 ->
  (j <= length msgs)%nat ->
  gets self block timeout j w1 = Returns vs w2 ->
  __len__ self w2
  = Returns (Z.of_nat (length msgs) - Z.of_nat j)
            (World (redis w2) (issue (LLEN (key self)) w2))
  /\ forall w0, exists n,
       __len__ self w0
       = Returns n (World (redis w0) (issue (LLEN (key self)) w0)).
Proof.
  intros He Hp Hj Hg. split.
  - unfold __len__, llen.
    rewrite (gets_returns_length _ _ _ _ _ _ _ Hg),
            (put_returns_length _ _ _ _ Hp), He.
    simpl. do 2 f_equal. lia.
  - intros w0. now eexists.
Qed.

(** C8. On a FIFO queue, [put_head] of [msgs] inserts the serialized
    messages at the head one at a time, so that they stand there in reverse
    order, the last argument frontmost, before what the list held; the next
    [len(msgs)] calls of [get()] return [msgs] reversed, and leave what the
    list held.  For [put_head("x", "y")] the two [get()] return ["y"], then
    ["x"]. *)
Theorem put_head_reverses_order (self : instance) (msgs : list pyval)
    (w : world) :
  class_of self = HotQueue ->
  round_trips (serializer self) msgs ->
  exists raws w1 w2,
    serialized (serializer self) msgs raws
    /\ put_head self msgs w = Returns tt w1
    /\ items w1 (key self) = rev raws ++ items w (key self)
    /\ gets self false None (length msgs) w1 = Returns (rev msgs) w2
    /\ items w2 (key self) = items w (key self).
Proof.
  intros Hc Hr.
  destruct (round_trips_raws _ _ Hr) as [raws [Hs Hd]].
  destruct (put_head_serialized self msgs raws w Hs) as [w1 [Hp Hi]].
  destruct (gets_from_head self false None (rev msgs) (rev raws)
              (items w (key self)) w1 Hc) as [w2 [Hg Hi2]];
    [now left | now apply Forall2_rev | assumption |].
  rewrite length_rev in Hg. now exists raws, w1, w2.
Qed.

(** C9. [clear] returns on every world, having removed the key of the queue
    from the data set whatever list it held; [__len__] then returns 0; a second
    [clear] returns too and changes nothing more; and on a world where the
    key is absent [clear] leaves the data set as it was. *)
Theorem clear_deletes_the_key (self : instance) (w : world) :
  exists w1,
    clear self w = Returns tt w1
    /\ redis w1 = delete (key self) (redis w)
    /\ (exists w2, __len__ self w1 = Returns 0 w2 /\ redis w2 = redis w1)
    /\ (exists w2, clear self w1 = Returns tt w2 /\ redis w2 = redis w1)
    /\ (redis w !! key self = None -> redis w1 = redis w).
Proof.
  exists (World (delete (key self) (redis w)) (issue (DEL (key self)) w)).
  split; [reflexivity |]. cbn [redis]. repeat apply conj.
  - reflexivity.
  - unfold __len__, llen, items. cbn [redis]. rewrite lookup_delete_eq.
    eexists. split; reflexivity.
  - eexists. split; [reflexivity |]. cbn [redis]. apply delete_delete_eq.
  - apply delete_id.
Qed.

(** *** A serializer that fails part of the way *)

Lemma for_each_app {A} (body : A -> M unit) (xs ys : list A) (w : world) :
  for_each body (xs ++ ys) w
  = (_ <- for_each body xs ;; for_each body ys) w.
Proof.
  revert w. induction xs as [|x xs IH]; intros w; [reflexivity |].
  simpl. unfold bind.
  destruct (body x w) as [[] w'|e w'|w']; try reflexivity.
  rewrite IH. reflexivity.
Qed.

(** Two [put]s in a row are one [put] of all the messages, so a single call
    stands for any number of them. *)
Lemma put_app self msgs1 msgs2 w :
  put self (msgs1 ++ msgs2) w = (_ <- put self msgs1 ;; put self msgs2) w.
Proof. apply for_each_app. Qed.

(** C10. [put] and [put_head] are not atomic over their arguments: when the
    messages [pre] serialize and [dumps] raises [e] on the next one, the
    call raises [e], and the list already holds the payloads of [pre], at
    its tail for [put] and reversed at its head for [put_head]. *)
Theorem put_keeps_messages_before_failure (self : instance)
    (pre post : list pyval) (msg : pyval) (raws : list bytes) (e : exn)
    (w : world) :
  serialized (serializer self) pre raws ->
  dumps (serializer self) msg = inl e ->
  (exists w',
     put self (pre ++ msg :: post) w = Raises e w'
     /\ items w' (key self) = items w (key self) ++ raws)
  /\ (exists w',
        put_head self (pre ++ msg :: post) w = Raises e w'
        /\ items w' (key self) = rev raws ++ items w (key self)).
Proof.
  intros Hs He. split.
  - destruct (put_serialized self pre raws w Hs) as [w1 [Hp Hi]].
    unfold put in *. rewrite for_each_app. unfold bind at 1. rewrite Hp.
    simpl. unfold bind at 1. unfold bind at 1. unfold call_dumps. rewrite He.
    eexists. split; [reflexivity |]. now rewrite items_log.
  - destruct (put_head_serialized self pre raws w Hs) as [w1 [Hp Hi]].
    unfold put_head in *. rewrite for_each_app. unfold bind at 1. rewrite Hp.
    simpl. unfold bind at 1. unfold bind at 1. unfold call_dumps. rewrite He.
    eexists. split; [reflexivity |]. now rewrite items_log.
Qed.

(** *** [get] on an empty list *)

Lemma pop_end_empty c : pop_end c [] = None.
Proof. now destruct c. Qed.

(** C6. On an empty list a non-blocking [get] returns [None], and so does a
    blocking [get] with a positive timeout, the timeout having elapsed;
    neither raises, and in both the one call made is the pop command:
    [loads] is not called. *)
Theorem get_on_empty_returns_none (self : instance) (timeout : option Z)
    (t : Z) (w : world) :
  items w (key self) = [] ->
  0 < t ->
  get self false timeout w
  = Returns PyNone
      (World (redis w)
         (calls w ++ [match class_of self with
                      | HotQueue => LPOP (key self)
                      | HotStack => RPOP (key self)
                      end]))
  /\ get self true (Some t) w
     = Returns PyNone
         (World (redis w)
            (calls w ++ [match class_of self with
                         | HotQueue => BLPOP (key self) t
                         | HotStack => BRPOP (key self) t
                         end])).
Proof.
  intros He Ht. rewrite !get_unfold, He, pop_end_empty. cbv zeta. simpl.
  assert (Hlt : (t <? 0) = false) by (apply Z.ltb_ge; lia).
  assert (Heq : (t =? 0) = false) by (apply Z.eqb_neq; lia).
  rewrite Hlt, Heq.
  unfold pop_call, issue. now destruct (class_of self).
Qed.

(** C7. A blocking [get] with no timeout is the blocking [get] with timeout
    0.  It issues one blocking pop, BLPOP or BRPOP, with timeout 0: on an
    empty list the call never returns; otherwise the element popped is
    passed to [loads] of the serializer of the queue, and the [get] returns
    what [loads] returns, or raises what it raises. *)
Theorem blocking_get_without_timeout (self : instance) (w : world) :
  get self true None w = get self true (Some 0) w
  /\ let cmd := match class_of self with
                | HotQueue => BLPOP (key self) 0
                | HotStack => BRPOP (key self) 0
                end in
     match pop_end (class_of self) (items w (key self)) with
     | None =>
         get self true None w = Blocks (World (redis w) (calls w ++ [cmd]))
     | Some (raw, rest) =>
         let w' := World (store (key self) rest (redis w))
                         (calls w ++ [cmd; LOADS raw]) in
         get self true None w
         = match loads (serializer self) raw with
           | inr msg => Returns msg w'
           | inl e => Raises e w'
           end
     end.
Proof.
  split; [now rewrite !get_unfold |].
  rewrite get_unfold. cbv zeta. simpl.
  assert (Hcmd : pop_call self true None
                 = match class_of self with
                   | HotQueue => BLPOP (key self) 0
                   | HotStack => BRPOP (key self) 0
                   end) by (unfold pop_call; now destruct (class_of self)).
  rewrite Hcmd.
  destruct (pop_end (class_of self) (items w (key self))) as [[raw rest]|];
    [| reflexivity].
  unfold call_loads, issue. simpl. rewrite <- app_assoc. simpl.
  now destruct (loads (serializer self) raw).
Qed.

(** *** The generator of [consume] *)

Lemma pop_end_length c l raw rest :
  pop_end c l = Some (raw, rest) -> length l = S (length rest).
Proof.
  unfold pop_end. destruct c.
  - destruct l; [discriminate |]. now intros [= _ <-].
  - pose proof (unsnoc_spec l) as Hs.
    destruct (unsnoc l) as [[front x]|]; [| discriminate].
    intros [= _ <-]. rewrite Hs, length_app. simpl. lia.
Qed.

(** A [get] that returns a message other than [None] has popped it. *)
Lemma get_returns_message_length self block timeout w v w' :
  get self block timeout w = Returns v w' ->
  v <> PyNone ->
  length (items w (key self)) = S (length (items w' (key self))).
Proof.
  rewrite get_unfold. cbv zeta.
  destruct (block && (default 0 timeout <? 0)); [discriminate |].
  destruct (pop_end (class_of self) (items w (key self))) as [[raw rest]|] eqn:Hp.
  - unfold call_loads. destruct (loads _ raw); [discriminate |].
    intros [= _ <-] _. rewrite items_store. apply (pop_end_length _ _ _ _ Hp).
  - destruct (block && (default 0 timeout =? 0)); [discriminate |].
    now intros [= <- _].
Qed.

(** One turn of the loop, by the outcome of its [get]. *)
Lemma consume_loop_cases self kwargs w :
  consume_loop self kwargs w =
    match get_with self kwargs w with
    | Returns PyNone w' => Returns (StopIteration, Finished) w'
    | Returns msg w' => Returns (Yield msg, Suspended kwargs) w'
    | Raises KeyboardInterrupt w' =>
        Returns (StopIteration, Finished) (World (redis w') (issue PRINT w'))
    | Raises e w' => Raises e w'
    | Blocks w' => Blocks w'
    end.
Proof.
  unfold consume_loop, try_except, bind.
  now destruct (get_with self kwargs w) as [[] ?|[] ?|?].
Qed.

Lemma get_with_setdefault self kwargs :
  get_with self (setdefault_block kwargs true)
  = get self (default true (kw_block kwargs)) (kw_timeout kwargs).
Proof.
  now destruct kwargs as [[b|] t].
Qed.

Lemma iterate_created fuel self kwargs w :
  iterate fuel self (Created kwargs) w
  = iterate fuel self (Suspended (setdefault_block kwargs true)) w.
Proof. now destruct fuel. Qed.

Section Consume.
Variable self : instance.
Variable kwargs : get_kwargs.

Let block := default false (kw_block kwargs).
Let timeout := kw_timeout kwargs.

Lemma iterate_stops_at_none (vs : list pyval) : forall fuel w w1 w2,
  gets self block timeout (length vs) w = Returns vs w1 ->
  Forall (fun msg => msg <> PyNone) vs ->
  get self block timeout w1 = Returns PyNone w2 ->
  (length vs < fuel)%nat ->
  iterate fuel self (Suspended kwargs) w = Run vs Exhausted w2.
Proof.
  induction vs as [|v vs IH]; intros fuel w w1 w2 Hg Hn He Hf.
  - injection Hg as <-. destruct fuel; [simpl in Hf; lia |].
    simpl. rewrite consume_loop_cases. unfold get_with.
    fold block timeout. now rewrite He.
  - destruct fuel; [simpl in Hf; lia |].
    simpl in Hg. unfold bind at 1 in Hg.
    destruct (get self block timeout w) as [v' w'|?|?] eqn:Hg1;
      try discriminate.
    unfold bind at 1 in Hg.
    destruct (gets self block timeout (length vs) w') as [vs' w1'|?|?] eqn:Hg2;
      try discriminate.
    injection Hg as -> -> ->.
    inversion Hn as [|? ? Hv Hn']; subst.
    simpl. rewrite consume_loop_cases. unfold get_with.
    fold block timeout. rewrite Hg1.
    assert (Hi : iterate fuel self (Suspended kwargs) w' = Run vs Exhausted w2)
      by (apply (IH fuel w' w1 w2 Hg2 Hn' He); simpl in Hf; lia).
    destruct v; [congruence | | |]; cbv beta iota; now rewrite Hi.
Qed.

Lemma iterate_yields_messages : forall fuel w,
  Forall (fun msg => msg <> PyNone)
         (yielded (iterate fuel self (Suspended kwargs) w)).
Proof.
  induction fuel as [|fuel IH]; intros w; simpl; [constructor |].
  rewrite consume_loop_cases.
  destruct (get_with self kwargs w) as [[] w'|[] w'|w']; simpl;
    try constructor; try discriminate; apply IH.
Qed.

Lemma iterate_follows_gets : forall fuel w,
  let r := iterate fuel self (Suspended kwargs) w in
  exists w1,
    gets self block timeout (length (yielded r)) w = Returns (yielded r) w1
    /\ ended_by self block timeout fuel w1 r.
Proof.
  induction fuel as [|fuel IH]; intros w; cbv zeta.
  - exists w. now split.
  - simpl. rewrite consume_loop_cases. unfold get_with.
    fold block timeout.
    destruct (get self block timeout w) as [v w'|e w'|w'] eqn:Hg.
    + assert (Hy : forall r, r = iterate fuel self (Suspended kwargs) w' ->
                exists w1,
                  gets self block timeout (length (v :: yielded r)) w
                  = Returns (v :: yielded r) w1
                  /\ ended_by self block timeout (S fuel) w1
                       (Run (v :: yielded r) (ending_of r) (final r))).
      { intros r ->. destruct (IH w') as [w1 [E1 E2]]. exists w1. split.
        - simpl. unfold bind at 1. rewrite Hg. unfold bind at 1.
          now rewrite E1.
        - unfold ended_by in *. simpl.
          destruct (ending_of (iterate fuel self (Suspended kwargs) w'));
            try assumption.
          destruct E2 as [E2 E3]. split; [exact E2 | now f_equal]. }
      destruct v; try (apply Hy; reflexivity).
      exists w. split; [reflexivity |]. now left.
    + destruct e as [|c].
      * exists w. split; [reflexivity |]. right. now exists w'.
      * exists w. split; [reflexivity |]. now split.
    + exists w. now split.
Qed.

Lemma iterate_ends : forall fuel w,
  (length (items w (key self)) < fuel)%nat ->
  ending_of (iterate fuel self (Suspended kwargs) w) <> OutOfFuel.
Proof.
  induction fuel as [|fuel IH]; intros w Hf; [lia |].
  simpl. rewrite consume_loop_cases. unfold get_with.
  destruct (get self (default false (kw_block kwargs)) (kw_timeout kwargs) w)
    as [v w'|e w'|w'] eqn:Hg.
  - assert (Hy : v <> PyNone ->
              (length (items w' (key self)) < fuel)%nat).
    { intros Hv.
      pose proof (get_returns_message_length _ _ _ _ _ _ Hg Hv). lia. }
    destruct v; simpl; try discriminate; apply IH, Hy; discriminate.
  - destruct e; simpl; discriminate.
  - simpl. discriminate.
Qed.
End Consume.

(** C5. [consume] takes [block] as true when the keyword is not given.  Its
    generator yields the results of successive [get] calls, one call for
    each element: when the first [len(vs)] calls return the messages [vs],
    none of them [None], and the next call returns [None], the loop yields
    exactly [vs] and stops there, in the world that last call left.  No
    message it yields is [None].  In every run the yielded messages are what
    that many successive calls of [get] returned, and the run ended on the
    next call: it returned [None], or it raised (a [KeyboardInterrupt] ends
    the sequence after a [print], anything else propagates), or it never
    returned.  The loop ends within one turn more than the list has
    elements. *)
Theorem consume_yields_until_first_none (self : instance)
    (kwargs : get_kwargs) :
  let block := default true (kw_block kwargs) in
  let timeout := kw_timeout kwargs in
  (forall vs fuel w w1 w2,
     gets self block timeout (length vs) w = Returns vs w1 ->
     Forall (fun msg => msg <> PyNone) vs ->
     get self block timeout w1 = Returns PyNone w2 ->
     (length vs < fuel)%nat ->
     iterate fuel self (consume self kwargs) w = Run vs Exhausted w2)
  /\ (forall fuel w,
        Forall (fun msg => msg <> PyNone)
               (yielded (iterate fuel self (consume self kwargs) w)))
  /\ (forall fuel w,
        let r := iterate fuel self (consume self kwargs) w in
        exists w1,
          gets self block timeout (length (yielded r)) w
          = Returns (yielded r) w1
          /\ ended_by self block timeout fuel w1 r)
  /\ (forall fuel w,
        (length (items w (key self)) < fuel)%nat ->
        ending_of (iterate fuel self (consume self kwargs) w) <> OutOfFuel).
Proof.
  cbv zeta. unfold consume.
  assert (Hb : default true (kw_block kwargs)
               = default false (kw_block (setdefault_block kwargs true)))
    by now destruct kwargs as [[b|] t].
  assert (Ht : kw_timeout kwargs = kw_timeout (setdefault_block kwargs true))
    by now destruct kwargs as [[b|] t].
  rewrite Hb, Ht. repeat apply conj.
  - intros vs fuel w w1 w2 Hg Hn He Hf. rewrite iterate_created.
    now apply (iterate_stops_at_none self _ vs fuel w w1 w2).
  - intros fuel w. rewrite iterate_created. apply iterate_yields_messages.
  - intros fuel w. rewrite iterate_created. apply iterate_follows_gets.
  - intros fuel w Hf. rewrite iterate_created. now apply iterate_ends.
Qed.

(** *** The statements on concrete queues *)

(** Closes [round_trips] on a concrete list by running the serializer. *)
Ltac run_round_trips :=
  unfold round_trips;
  repeat (constructor; [eexists; split; reflexivity |]);
  constructor.

Lemma fifo_put_then_get_in_order_example :
  (class_of jobs = HotQueue
   /\ items fresh (key jobs) = []
   /\ round_trips (serializer jobs) [PyStr "a"; PyStr "b"; PyStr "c"])
  /\ exists w1 w2,
       put jobs [PyStr "a"; PyStr "b"; PyStr "c"] fresh = Returns tt w1
       /\ gets jobs false None 3 w1
          = Returns [PyStr "a"; PyStr "b"; PyStr "c"] w2
       /\ items w2 (key jobs) = [].
Proof.
  assert (Hr : round_trips (serializer jobs) [PyStr "a"; PyStr "b"; PyStr "c"])
    by run_round_trips.
  split; [split; [reflexivity | split; [reflexivity | exact Hr]] |].
  exact (fifo_put_then_get_in_order jobs [PyStr "a"; PyStr "b"; PyStr "c"]
           fresh eq_refl eq_refl Hr).
Defined.

Lemma lifo_put_then_get_reversed_example :
  (class_of undo = HotStack
   /\ items fresh (key undo) = []
   /\ round_trips (serializer undo) [PyStr "a"; PyStr "b"; PyStr "c"]
   /\ accepted true (Some 5))
  /\ exists raws w1 w2,
       serialized (serializer undo) [PyStr "a"; PyStr "b"; PyStr "c"] raws
       /\ put undo [PyStr "a"; PyStr "b"; PyStr "c"] fresh = Returns tt w1
       /\ items w1 (key undo) = raws
       /\ gets undo true (Some 5) 3 w1
          = Returns [PyStr "c"; PyStr "b"; PyStr "a"] w2
       /\ items w2 (key undo) = [].
Proof.
  assert (Hr : round_trips (serializer undo) [PyStr "a"; PyStr "b"; PyStr "c"])
    by run_round_trips.
  assert (Ha : accepted true (Some 5)) by (right; simpl; lia).
  split; [split; [reflexivity | split; [reflexivity | split; assumption]] |].
  exact (proj1 (lifo_put_then_get_reversed undo
                  [PyStr "a"; PyStr "b"; PyStr "c"] fresh true (Some 5)
                  eq_refl eq_refl Hr Ha)).
Defined.

Lemma len_after_put_and_get_example :
  (items fresh (key jobs) = []
   /\ put jobs [msg_x; msg_y] fresh = Returns tt loaded
   /\ (1 <= length [msg_x; msg_y])%nat
   /\ gets jobs false None 1 loaded = Returns [msg_x] served)
  /\ __len__ jobs served
     = Returns 1 (World (redis served) (issue (LLEN (key jobs)) served)).
Proof.
  assert (Hj : (1 <= length [msg_x; msg_y])%nat) by (simpl; lia).
  split; [split; [reflexivity | split; [reflexivity | split;
          [exact Hj | reflexivity]]] |].
  exact (proj1 (len_after_put_and_get jobs [msg_x; msg_y] false None 1
                  [msg_x] fresh loaded served eq_refl eq_refl Hj eq_refl)).
Defined.

Lemma consume_yields_until_first_none_example :
  exists w2,
    iterate 3 jobs (consume jobs (Kwargs None (Some 1))) loaded
    = Run [msg_x; msg_y] Exhausted w2
    /\ calls w2
       = calls loaded
         ++ [BLPOP "hotqueue:jobs" 1; LOADS (list_byte_of_string "x");
             BLPOP "hotqueue:jobs" 1; LOADS (list_byte_of_string "y");
             BLPOP "hotqueue:jobs" 1].
Proof.
  eexists. split.
  - apply (proj1 (consume_yields_until_first_none jobs (Kwargs None (Some 1)))
             [msg_x; msg_y] 3%nat loaded
             (world_of (gets jobs true (Some 1) 2 loaded))).
    + reflexivity.
    + repeat constructor; discriminate.
    + reflexivity.
    + simpl. lia.
  - reflexivity.
Defined.

Lemma get_on_empty_returns_none_example :
  (items fresh (key jobs) = [] /\ 0 < 1)
  /\ get jobs false None fresh
     = Returns PyNone (World ∅ [LPOP "hotqueue:jobs"])
  /\ get jobs true (Some 1) fresh
     = Returns PyNone (World ∅ [BLPOP "hotqueue:jobs" 1]).
Proof.
  assert (Ht : 0 < 1) by lia.
  split; [split; [reflexivity | exact Ht] |].
  exact (get_on_empty_returns_none jobs None 1 fresh eq_refl Ht).
Defined.

Lemma put_head_x_y_example :
  (class_of jobs = HotQueue /\ round_trips (serializer jobs) [msg_x; msg_y])
  /\ exists raws w1 w2,
       serialized (serializer jobs) [msg_x; msg_y] raws
       /\ put_head jobs [msg_x; msg_y] fresh = Returns tt w1
       /\ items w1 (key jobs) = rev raws ++ items fresh (key jobs)
       /\ gets jobs false None 2 w1 = Returns [msg_y; msg_x] w2
       /\ items w2 (key jobs) = items fresh (key jobs).
Proof.
  assert (Hr : round_trips (serializer jobs) [msg_x; msg_y])
    by run_round_trips.
  split; [split; [reflexivity | exact Hr] |].
  exact (put_head_reverses_order jobs [msg_x; msg_y] fresh eq_refl Hr).
Defined.

Lemma put_keeps_messages_before_failure_example :
  (serialized (serializer jobs) [msg_x] [list_byte_of_string "x"]
   /\ dumps (serializer jobs) (PyInt 7) = inl (Exception "TypeError"))
  /\ (exists w',
        put jobs [msg_x; PyInt 7; msg_y] fresh
        = Raises (Exception "TypeError") w'
        /\ items w' (key jobs) = [list_byte_of_string "x"])
  /\ (exists w',
        put_head jobs [msg_x; PyInt 7; msg_y] fresh
        = Raises (Exception "TypeError") w'
        /\ items w' (key jobs) = [list_byte_of_string "x"]).
Proof.
  assert (Hs : serialized (serializer jobs) [msg_x] [list_byte_of_string "x"])
    by (repeat constructor).
  split; [split; [exact Hs | reflexivity] |].
  exact (put_keeps_messages_before_failure jobs [msg_x] [msg_y] (PyInt 7)
           [list_byte_of_string "x"] (Exception "TypeError") fresh
           Hs eq_refl).
Defined.

(** ** Further properties of the adapter *)

(** *** Queues and keys *)

Lemma append_prefix_inj (p a b : string) : p +:+ a = p +:+ b -> a = b.
Proof.
  induction p as [|c p IH]; intros H; [exact H |].
  change (String c (p +:+ a) = String c (p +:+ b)) in H.
  injection H as H. now apply IH.
Qed.

Lemma key_inj (self other : instance) :
  key self = key other -> name self = name other.
Proof.
  unfold key. rewrite !key_for_name_prefix. apply append_prefix_inj.
Qed.

(** Two queues have the same storage key exactly when they have the same
    name: queues with different names never share a list. *)
Theorem same_key_iff_same_name (self other : instance) :
  key self = key other <-> name self = name other.
Proof.
  split; [apply key_inj |]. unfold key. now intros ->.
Qed.

Section Preserves.
Variable k : string.

Lemma preserves_ret {A} (a : A) : preserves k (ret a).
Proof. now intros w. Qed.

Lemma preserves_raise {A} (e : exn) : preserves k (@raise A e).
Proof. now intros w. Qed.

Lemma preserves_bind {A B} (m : M A) (f : A -> M B) :
  preserves k m -> (forall a, preserves k (f a)) -> preserves k (bind m f).
Proof.
  intros Hm Hf w. unfold bind. pose proof (Hm w) as H1.
  destruct (m w) as [a w'|e w'|w']; simpl in *; try assumption.
  now rewrite (Hf a w').
Qed.

Lemma preserves_try_except {A} (m : M A) (h : exn -> M A) :
  preserves k m -> (forall e, preserves k (h e)) ->
  preserves k (try_except m h).
Proof.
  intros Hm Hh w. unfold try_except. pose proof (Hm w) as H1.
  destruct (m w) as [a w'|e w'|w']; simpl in *; try assumption.
  now rewrite (Hh e w').
Qed.

Lemma preserves_for_each {A} (body : A -> M unit) (xs : list A) :
  (forall x, preserves k (body x)) -> preserves k (for_each body xs).
Proof.
  intros Hb. induction xs as [|x xs IH]; simpl.
  - apply preserves_ret.
  - apply preserves_bind; auto.
Qed.

Lemma store_other k' l (db : gmap string (list bytes)) :
  k <> k' -> store k' l db !! k = db !! k.
Proof.
  intros Hne. unfold store. destruct l.
  - now rewrite lookup_delete_ne.
  - now rewrite lookup_insert_ne.
Qed.

Lemma preserves_rpush k' v : k <> k' -> preserves k (rpush k' v).
Proof. intros Hne w. simpl. now rewrite lookup_insert_ne. Qed.

Lemma preserves_lpush k' v : k <> k' -> preserves k (lpush k' v).
Proof. intros Hne w. simpl. now rewrite lookup_insert_ne. Qed.

Lemma preserves_lpop k' : k <> k' -> preserves k (lpop k').
Proof.
  intros Hne w. unfold lpop.
  destruct (items w k'); cbn [world_of redis]; [reflexivity |].
  now apply store_other.
Qed.

Lemma preserves_rpop k' : k <> k' -> preserves k (rpop k').
Proof.
  intros Hne w. unfold rpop.
  destruct (unsnoc (items w k')) as [[front x]|]; cbn [world_of redis];
    [| reflexivity].
  now apply store_other.
Qed.

Lemma preserves_blpop k' t : k <> k' -> preserves k (blpop k' t).
Proof.
  intros Hne w. unfold blpop, wait_empty.
  destruct (t <? 0); [reflexivity |].
  destruct (items w k'); cbn [world_of redis].
  - now destruct (t =? 0).
  - now apply store_other.
Qed.

Lemma preserves_brpop k' t : k <> k' -> preserves k (brpop k' t).
Proof.
  intros Hne w. unfold brpop, wait_empty.
  destruct (t <? 0); [reflexivity |].
  destruct (unsnoc (items w k')) as [[front x]|]; cbn [world_of redis].
  - now apply store_other.
  - now destruct (t =? 0).
Qed.

Lemma preserves_delete_key k' : k <> k' -> preserves k (delete_key k').
Proof. intros Hne w. cbn [delete_key world_of redis]. now rewrite lookup_delete_ne. Qed.

Lemma preserves_llen k' : preserves k (llen k').
Proof. now intros w. Qed.

Lemma preserves_dumps s msg : preserves k (call_dumps s msg).
Proof. intros w. unfold call_dumps. now destruct (dumps s msg). Qed.

Lemma preserves_loads s raw : preserves k (call_loads s raw).
Proof. intros w. unfold call_loads. now destruct (loads s raw). Qed.

Lemma preserves_print : preserves k print.
Proof. now intros w. Qed.

Lemma preserves_get self block timeout :
  k <> key self -> preserves k (get self block timeout).
Proof.
  intros Hne. unfold get. apply preserves_bind.
  - destruct block, (class_of self); simpl;
      try apply preserves_bind; intros;
      auto using preserves_ret, preserves_lpop, preserves_rpop,
                 preserves_blpop, preserves_brpop.
  - intros [raw|]; auto using preserves_ret, preserves_loads.
Qed.

Lemma preserves_put self msgs : k <> key self -> preserves k (put self msgs).
Proof.
  intros Hne. apply preserves_for_each. intros msg.
  repeat (apply preserves_bind; intros);
    auto using preserves_ret, preserves_dumps, preserves_rpush.
Qed.

Lemma preserves_put_head self msgs :
  k <> key self -> preserves k (put_head self msgs).
Proof.
  intros Hne. apply preserves_for_each. intros msg.
  repeat (apply preserves_bind; intros);
    auto using preserves_ret, preserves_dumps, preserves_lpush.
Qed.

Lemma preserves_next self g : k <> key self -> preserves k (next self g).
Proof.
  intros Hne.
  assert (Hl : forall kwargs, preserves k (consume_loop self kwargs)).
  { intros kwargs. apply preserves_try_except.
    - apply preserves_bind; [now apply preserves_get |].
      intros []; apply preserves_ret.
    - intros []; [apply preserves_bind; intros|];
        auto using preserves_ret, preserves_raise, preserves_print. }
  destruct g; simpl; auto using preserves_ret.
Qed.
End Preserves.

(** No method touches another key: whatever a call on a queue does, and
    whether it returns, raises or blocks, every key other than the queue's
    own holds afterwards what it held before. *)
Theorem other_keys_are_left_alone (self : instance) (k : string) :
  k <> key self ->
  preserves k (__len__ self)
  /\ preserves k (clear self)
  /\ (forall block timeout, preserves k (get self block timeout))
  /\ (forall msgs, preserves k (put self msgs))
  /\ (forall msgs, preserves k (put_head self msgs))
  /\ (forall g, preserves k (next self g)).
Proof.
  intros Hne. repeat apply conj.
  - apply preserves_llen.
  - unfold clear. apply preserves_bind; intros;
      auto using preserves_ret, preserves_delete_key.
  - intros. now apply preserves_get.
  - intros. now apply preserves_put.
  - intros. now apply preserves_put_head.
  - intros. now apply preserves_next.
Qed.

(** *** One [get] *)

Lemma pop_end_inv c l raw rest :
  pop_end c l = Some (raw, rest) ->
  l = match c with
      | HotQueue => raw :: rest
      | HotStack => rest ++ [raw]
      end.
Proof.
  unfold pop_end. destruct c.
  - destruct l; [discriminate |]. now intros [= -> ->].
  - pose proof (unsnoc_spec l) as Hs.
    destruct (unsnoc l) as [[front x]|]; [| discriminate].
    now intros [= -> ->].
Qed.

Lemma pop_end_nonempty c l :
  l <> [] -> exists raw rest, pop_end c l = Some (raw, rest).
Proof.
  intros Hl. unfold pop_end. destruct c.
  - destruct l; [congruence | eauto].
  - pose proof (unsnoc_spec l) as Hs.
    destruct (unsnoc l) as [[front x]|]; [eauto | congruence].
Qed.

(** [get] pops before it deserializes: when [loads] raises on the payload
    popped, [get] raises the same exception and the message is gone from
    the list. *)
Theorem get_loses_message_when_loads_raises (self : instance)
    (block : bool) (timeout : option Z) (w : world) (raw : bytes)
    (rest : list bytes) (e : exn) :
  accepted block timeout ->
  pop_end (class_of self) (items w (key self)) = Some (raw, rest) ->
  loads (serializer self) raw = inl e ->
  exists w',
    get self block timeout w = Raises e w'
    /\ items w' (key self) = rest.
Proof.
  intros Ha Hp Hl. rewrite (get_pops _ _ _ _ _ _ Ha Hp).
  unfold call_loads. rewrite Hl. eexists. split; [reflexivity |].
  now rewrite items_log, items_store.
Qed.

(** Whatever its outcome, a [get] leaves the list as long as it was or one
    element shorter. *)
Theorem get_removes_at_most_one (self : instance) (block : bool)
    (timeout : option Z) (w : world) :
  let before := length (items w (key self)) in
  let after := length (items (world_of (get self block timeout w)) (key self)) in
  after = before \/ S after = before.
Proof.
  cbv zeta. rewrite get_unfold. cbv zeta.
  destruct (block && (default 0 timeout <? 0)); [now left |].
  destruct (pop_end (class_of self) (items w (key self))) as [[raw rest]|] eqn:Hp.
  - right. rewrite (pop_end_length _ _ _ _ Hp). f_equal.
    unfold call_loads.
    destruct (loads (serializer self) raw); cbn [world_of];
      now rewrite items_log, items_store.
  - left. now destruct (block && (default 0 timeout =? 0)).
Qed.

(** On a list that is not empty, blocking changes nothing but the command
    sent: a blocking [get] returns or raises what the non-blocking [get]
    does, and leaves the same data set. *)
Theorem blocking_get_on_nonempty_list (self : instance)
    (timeout timeout' : option Z) (w : world) :
  items w (key self) <> [] ->
  0 <= default 0 timeout ->
  seen (get self true timeout w) = seen (get self false timeout' w).
Proof.
  intros Hne Ht.
  destruct (pop_end_nonempty (class_of self) _ Hne) as [raw [rest Hp]].
  rewrite (get_pops self true timeout w raw rest) by (now right) || exact Hp.
  rewrite (get_pops self false timeout' w raw rest) by (now left) || exact Hp.
  unfold call_loads. now destruct (loads (serializer self) raw).
Qed.

(** In every outcome a [get] issues exactly one Redis command, the pop of
    its class and mode, followed by at most one call of [loads]. *)
Theorem get_issues_one_command (self : instance) (block : bool)
    (timeout : option Z) (w : world) :
  exists tail,
    calls (world_of (get self block timeout w))
    = calls w ++ pop_call self block timeout :: tail
    /\ (tail = [] \/ exists raw, tail = [LOADS raw]).
Proof.
  rewrite get_unfold. cbv zeta.
  destruct (block && (default 0 timeout <? 0)); [exists []; now split; [|left] |].
  destruct (pop_end (class_of self) (items w (key self))) as [[raw rest]|].
  - exists [LOADS raw]. split; [| right; now exists raw].
    unfold call_loads, issue.
    destruct (loads (serializer self) raw); cbn [world_of calls];
      now rewrite <- app_assoc.
  - exists []. split; [| now left].
    now destruct (block && (default 0 timeout =? 0)).
Qed.

(** A message taken by [get] can be given back: on a FIFO queue [put_head]
    of the message, on a LIFO queue [put] of it, makes the list what it was
    before the [get], when the serializer writes the message as it was
    stored. *)
Theorem get_then_push_back_restores (self : instance) (block : bool)
    (timeout : option Z) (w : world) (raw : bytes) (rest : list bytes)
    (msg : pyval) :
  accepted block timeout ->
  pop_end (class_of self) (items w (key self)) = Some (raw, rest) ->
  loads (serializer self) raw = inr msg ->
  dumps (serializer self) msg = inr raw ->
  exists w1 w2,
    get self block timeout w = Returns msg w1
    /\ match class_of self with
       | HotQueue => put_head self [msg] w1
       | HotStack => put self [msg] w1
       end = Returns tt w2
    /\ items w2 (key self) = items w (key self).
Proof.
  intros Ha Hp Hl Hd. rewrite (get_pops _ _ _ _ _ _ Ha Hp).
  rewrite (call_loads_returns _ _ _ _ Hl).
  assert (Hs : serialized (serializer self) [msg] [raw])
    by (repeat constructor; assumption).
  eexists. rewrite (pop_end_inv _ _ _ _ Hp).
  destruct (class_of self).
  - edestruct (put_head_serialized self [msg] [raw]) as [w2 [E1 E2]];
      [exact Hs |].
    exists w2. split; [reflexivity |]. split; [exact E1 |].
    now rewrite E2, items_log, items_store.
  - edestruct (put_serialized self [msg] [raw]) as [w2 [E1 E2]];
      [exact Hs |].
    exists w2. split; [reflexivity |]. split; [exact E1 |].
    now rewrite E2, items_log, items_store.
Qed.

(** *** [put], [put_head] and the order of delivery *)

Lemma put_head_returns_length self msgs : forall w w',
  put_head self msgs w = Returns tt w' ->
  length (items w' (key self))
  = (length (items w (key self)) + length msgs)%nat.
Proof.
  unfold put_head. induction msgs as [|msg msgs IH]; intros w w'; simpl.
  - intros [= <-]. lia.
  - unfold bind at 1. unfold bind at 1. unfold call_dumps.
    destruct (dumps (serializer self) msg) as [e|raw]; [discriminate |].
    unfold bind at 1. unfold lpush, ret. intros H.
    rewrite (IH _ _ H), items_insert, items_log. simpl. lia.
Qed.

(** A [put] or a [put_head] that returns has made the list longer by the
    number of its messages, whatever the list held: [__len__] afterwards
    returns what it returned before plus that number. *)
Theorem len_grows_by_messages_put (self : instance) (msgs : list pyval)
    (w w1 : world) :
  put self msgs w = Returns tt w1 \/ put_head self msgs w = Returns tt w1 ->
  exists n wa wb,
    __len__ self w = Returns n wa
    /\ __len__ self w1 = Returns (n + Z.of_nat (length msgs)) wb.
Proof.
  intros H.
  assert (Hl : length (items w1 (key self))
               = (length (items w (key self)) + length msgs)%nat)
    by (destruct H; [now apply put_returns_length
                    | now apply put_head_returns_length]).
  unfold __len__, llen. do 3 eexists. split; [reflexivity |].
  rewrite Hl, Nat2Z.inj_add. reflexivity.
Qed.

Lemma put_calls self msgs raws : forall w,
  serialized (serializer self) msgs raws ->
  calls (world_of (put self msgs w))
  = calls w ++ push_calls (RPUSH (key self)) msgs raws.
Proof.
  intros w H. revert w.
  induction H as [|msg raw msgs raws Hd _ IH]; intros w.
  - unfold push_calls. simpl. now rewrite app_nil_r.
  - unfold put in *. simpl. unfold bind at 1. unfold bind at 1.
    unfold call_dumps. rewrite Hd. unfold bind at 1. unfold rpush, ret.
    match goal with |- context [for_each _ msgs ?w1] =>
      etransitivity; [exact (IH w1) |] end.
    unfold push_calls, issue. simpl. now rewrite <- !app_assoc.
Qed.

Lemma put_head_calls self msgs raws : forall w,
  serialized (serializer self) msgs raws ->
  calls (world_of (put_head self msgs w))
  = calls w ++ push_calls (LPUSH (key self)) msgs raws.
Proof.
  intros w H. revert w.
  induction H as [|msg raw msgs raws Hd _ IH]; intros w.
  - unfold push_calls. simpl. now rewrite app_nil_r.
  - unfold put_head in *. simpl. unfold bind at 1. unfold bind at 1.
    unfold call_dumps. rewrite Hd. unfold bind at 1. unfold lpush, ret.
    match goal with |- context [for_each _ msgs ?w1] =>
      etransitivity; [exact (IH w1) |] end.
    unfold push_calls, issue. simpl. now rewrite <- !app_assoc.
Qed.

(** [put] sends its messages one at a time: for each message, in call
    order, one [dumps] and then one RPUSH of its payload, and nothing else;
    [put_head] does the same with LPUSH. *)
Theorem put_pushes_one_message_at_a_time (self : instance)
    (msgs : list pyval) (raws : list bytes) (w : world) :
  serialized (serializer self) msgs raws ->
  calls (world_of (put self msgs w))
  = calls w ++ push_calls (RPUSH (key self)) msgs raws
  /\ calls (world_of (put_head self msgs w))
     = calls w ++ push_calls (LPUSH (key self)) msgs raws.
Proof.
  intros H. split; [now apply put_calls | now apply put_head_calls].
Qed.

(** One call with all the messages does what two calls in a row do, for
    [put] and for [put_head], in every outcome. *)
Theorem put_in_two_calls (self : instance) (msgs1 msgs2 : list pyval)
    (w : world) :
  put self (msgs1 ++ msgs2) w = (_ <- put self msgs1 ;; put self msgs2) w
  /\ put_head self (msgs1 ++ msgs2) w
     = (_ <- put_head self msgs1 ;; put_head self msgs2) w.
Proof. split; apply for_each_app. Qed.

Lemma gets_in_pop_order self block timeout msgs raws w :
  accepted block timeout ->
  deserialized (serializer self) msgs raws ->
  items w (key self) = pop_order (class_of self) raws ->
  exists w',
    gets self block timeout (length msgs) w = Returns msgs w'
    /\ items w' (key self) = [].
Proof.
  intros Ha Hd Hi. destruct (class_of self) eqn:Hc; simpl in Hi.
  - apply (gets_from_head self block timeout msgs raws [] w Hc Ha Hd).
    now rewrite app_nil_r.
  - now apply (gets_from_tail self block timeout msgs raws [] w Hc Ha Hd).
Qed.

(** The queue is in the store, not in the instance: what one instance puts,
    another instance with the same name gets, in call order if it is a
    [HotQueue] and in reverse if it is a [HotStack], when its serializer
    reads what the first one's writes. *)
Theorem producer_and_consumer_instances (producer consumer : instance)
    (msgs : list pyval) (w : world) (block : bool) (timeout : option Z) :
  name producer = name consumer ->
  items w (key producer) = [] ->
  Forall (fun msg => exists raw,
            dumps (serializer producer) msg = inr raw
            /\ loads (serializer consumer) raw = inr msg) msgs ->
  accepted block timeout ->
  exists w1 w2,
    put producer msgs w = Returns tt w1
    /\ gets consumer block timeout (length msgs) w1
       = Returns (match class_of consumer with
                  | HotQueue => msgs
                  | HotStack => rev msgs
                  end) w2
    /\ items w2 (key consumer) = [].
Proof.
  intros Hn He Hr Ha.
  assert (Hk : key producer = key consumer)
    by (unfold key; now rewrite Hn).
  assert (exists raws, serialized (serializer producer) msgs raws
                       /\ deserialized (serializer consumer) msgs raws)
    as [raws [Hs Hd]].
  { clear -Hr. induction Hr as [|msg msgs [raw [H1 H2]] _ [raws [Hs Hd]]].
    - exists []. split; constructor.
    - exists (raw :: raws). split; constructor; assumption. }
  destruct (put_serialized producer msgs raws w Hs) as [w1 [Hp Hi]].
  rewrite He, Hk in Hi. simpl in Hi.
  exists w1. destruct (class_of consumer) eqn:Hc.
  - destruct (gets_in_pop_order consumer block timeout msgs raws w1 Ha Hd)
      as [w2 [Hg Hi2]]; [now rewrite Hc | now exists w2].
  - destruct (gets_in_pop_order consumer block timeout (rev msgs) (rev raws)
                w1 Ha) as [w2 [Hg Hi2]].
    + now apply Forall2_rev.
    + rewrite Hc. simpl. now rewrite rev_involutive.
    + rewrite length_rev in Hg. now exists w2.
Qed.

(** On a [HotStack] whose list is empty, [put_head] delivers in call order:
    the messages go to the head one by one and are popped from the tail, so
    the [get]s return them as they were given. *)
Theorem lifo_put_head_then_get_in_order (self : instance)
    (msgs : list pyval) (w : world) (block : bool) (timeout : option Z) :
  class_of self = HotStack ->
  items w (key self) = [] ->
  round_trips (serializer self) msgs ->
  accepted block timeout ->
  exists w1 w2,
    put_head self msgs w = Returns tt w1
    /\ gets self block timeout (length msgs) w1 = Returns msgs w2
    /\ items w2 (key self) = [].
Proof.
  intros Hc He Hr Ha.
  destruct (round_trips_raws _ _ Hr) as [raws [Hs Hd]].
  destruct (put_head_serialized self msgs raws w Hs) as [w1 [Hp Hi]].
  rewrite He, app_nil_r in Hi.
  destruct (gets_in_pop_order self block timeout msgs raws w1 Ha Hd)
    as [w2 [Hg Hi2]]; [now rewrite Hc | now exists w1, w2].
Qed.

(** *** The generator of [consume], further *)

Lemma gives_up_accepted block timeout :
  gives_up block timeout -> accepted block timeout.
Proof.
  intros [-> | [t [-> Ht]]]; [now left | right; simpl; lia].
Qed.

Lemma get_gives_up_on_empty self block timeout w :
  gives_up block timeout ->
  items w (key self) = [] ->
  get self block timeout w
  = Returns PyNone
      (World (redis w) (issue (pop_call self block timeout) w)).
Proof.
  intros Hg He. rewrite get_unfold. cbv zeta.
  rewrite (accepted_test _ _ (gives_up_accepted _ _ Hg)), He, pop_end_empty.
  destruct Hg as [-> | [t [-> Ht]]]; [reflexivity |].
  destruct block; [| reflexivity]. simpl.
  assert (Heq : (t =? 0) = false) by (apply Z.eqb_neq; lia).
  now rewrite Heq.
Qed.

Lemma get_waits_on_empty self timeout w :
  default 0 timeout = 0 ->
  items w (key self) = [] ->
  get self true timeout w
  = Blocks (World (redis w) (issue (pop_call self true timeout) w)).
Proof.
  intros Ht He. rewrite get_unfold. cbv zeta.
  now rewrite He, pop_end_empty, Ht.
Qed.

(** The loop after the [get]s that gave its first messages. *)
Lemma iterate_after_gets self kwargs (vs : list pyval) : forall fuel w w1,
  gets self (default false (kw_block kwargs)) (kw_timeout kwargs)
       (length vs) w = Returns vs w1 ->
  Forall (fun msg => msg <> PyNone) vs ->
  iterate (length vs + fuel) self (Suspended kwargs) w
  = Run (vs ++ yielded (iterate fuel self (Suspended kwargs) w1))
        (ending_of (iterate fuel self (Suspended kwargs) w1))
        (final (iterate fuel self (Suspended kwargs) w1)).
Proof.
  induction vs as [|v vs IH]; intros fuel w w1 Hg Hn.
  - injection Hg as <-. simpl.
    now destruct (iterate fuel self (Suspended kwargs) w).
  - simpl in Hg. unfold bind at 1 in Hg.
    destruct (get self _ _ w) as [v' w'|?|?] eqn:Hg1; try discriminate.
    unfold bind at 1 in Hg.
    destruct (gets self _ _ (length vs) w') as [vs' w1'|?|?] eqn:Hg2;
      try discriminate.
    injection Hg as -> -> ->.
    inversion Hn as [|? ? Hv Hn']; subst.
    change (length (v :: vs) + fuel)%nat with (S (length vs + fuel)).
    simpl. rewrite consume_loop_cases. unfold get_with. rewrite Hg1.
    pose proof (IH fuel w' w1 Hg2 Hn') as Hi.
    destruct v; [congruence | | |]; cbv beta iota; now rewrite Hi.
Qed.

Lemma kwargs_with_default kwargs :
  default false (kw_block (setdefault_block kwargs true))
  = default true (kw_block kwargs)
  /\ kw_timeout (setdefault_block kwargs true) = kw_timeout kwargs.
Proof. now destruct kwargs as [[b|] t]. Qed.

(** The loop of [consume] when the [get]s give [vs] and the next [get] is
    [last]. *)
Lemma iterate_consume_after_gets self kwargs vs fuel w w1 :
  gets self (default true (kw_block kwargs)) (kw_timeout kwargs)
       (length vs) w = Returns vs w1 ->
  Forall (fun msg => msg <> PyNone) vs ->
  (length vs < fuel)%nat ->
  iterate fuel self (consume self kwargs) w
  = match get self (default true (kw_block kwargs)) (kw_timeout kwargs) w1 with
    | Returns PyNone w2 => Run vs Exhausted w2
    | Raises KeyboardInterrupt w2 =>
        Run vs Exhausted (World (redis w2) (issue PRINT w2))
    | Raises e w2 => Run vs (Failed e) w2
    | Blocks w2 => Run vs Stuck w2
    | Returns msg w2 =>
        let r := iterate (fuel - S (length vs)) self
                   (Suspended (setdefault_block kwargs true)) w2 in
        Run (vs ++ msg :: yielded r) (ending_of r) (final r)
    end.
Proof.
  intros Hg Hn Hf. unfold consume. rewrite iterate_created.
  destruct (kwargs_with_default kwargs) as [Hb Ht].
  rewrite <- Hb, <- Ht in *.
  replace fuel with (length vs + S (fuel - S (length vs)))%nat at 1 by lia.
  rewrite (iterate_after_gets _ _ vs _ w w1 Hg Hn).
  simpl. rewrite consume_loop_cases. unfold get_with.
  destruct (get self _ _ w1) as [[] w2|[] w2|w2]; simpl;
    rewrite ?app_nil_r; reflexivity.
Qed.

(** With a [get] that gives up on an empty list (non-blocking, or blocking
    with a positive timeout), [consume] drains the queue: it yields the
    messages the list holds, in the order its class pops them, and ends
    with the list empty; no message is [None] here. *)
Theorem consume_drains_the_queue (self : instance) (kwargs : get_kwargs)
    (msgs : list pyval) (raws : list bytes) (w : world) (fuel : nat) :
  gives_up (default true (kw_block kwargs)) (kw_timeout kwargs) ->
  deserialized (serializer self) msgs raws ->
  Forall (fun msg => msg <> PyNone) msgs ->
  items w (key self) = pop_order (class_of self) raws ->
  (length msgs < fuel)%nat ->
  exists w',
    iterate fuel self (consume self kwargs) w = Run msgs Exhausted w'
    /\ items w' (key self) = [].
Proof.
  intros Hu Hd Hn Hi Hf.
  destruct (gets_in_pop_order self _ _ msgs raws w
              (gives_up_accepted _ _ Hu) Hd Hi) as [w1 [Hg He]].
  rewrite (iterate_consume_after_gets _ _ _ _ _ _ Hg Hn Hf).
  rewrite (get_gives_up_on_empty _ _ _ _ Hu He).
  eexists. split; [reflexivity |]. now rewrite items_log.
Qed.

(** With the default blocking [get] and no timeout (or timeout 0),
    [consume] yields the messages the list holds and then waits for ever:
    alone on the store, the loop never ends by itself. *)
Theorem consume_without_timeout_waits (self : instance)
    (kwargs : get_kwargs) (msgs : list pyval) (raws : list bytes)
    (w : world) (fuel : nat) :
  default true (kw_block kwargs) = true ->
  default 0 (kw_timeout kwargs) = 0 ->
  deserialized (serializer self) msgs raws ->
  Forall (fun msg => msg <> PyNone) msgs ->
  items w (key self) = pop_order (class_of self) raws ->
  (length msgs < fuel)%nat ->
  exists w',
    iterate fuel self (consume self kwargs) w = Run msgs Stuck w'
    /\ items w' (key self) = [].
Proof.
  intros Hb Ht Hd Hn Hi Hf.
  assert (Ha : accepted (default true (kw_block kwargs)) (kw_timeout kwargs))
    by (right; lia).
  destruct (gets_in_pop_order self _ _ msgs raws w Ha Hd Hi) as [w1 [Hg He]].
  rewrite (iterate_consume_after_gets _ _ _ _ _ _ Hg Hn Hf).
  rewrite Hb, (get_waits_on_empty _ _ _ Ht He).
  eexists. split; [reflexivity |]. now rewrite items_log.
Qed.

(** A stored [None] ends [consume] early: on a FIFO queue whose list holds
    a payload that deserializes to [None], the loop yields the messages
    before it and stops as if the queue were empty; the [None] is consumed
    and the messages behind it stay in the list. *)
Theorem none_message_ends_consume (self : instance) (kwargs : get_kwargs)
    (msgs : list pyval) (raws : list bytes) (raw_none : bytes)
    (rest : list bytes) (w : world) (fuel : nat) :
  class_of self = HotQueue ->
  accepted (default true (kw_block kwargs)) (kw_timeout kwargs) ->
  deserialized (serializer self) msgs raws ->
  Forall (fun msg => msg <> PyNone) msgs ->
  loads (serializer self) raw_none = inr PyNone ->
  items w (key self) = raws ++ raw_none :: rest ->
  (length msgs < fuel)%nat ->
  exists w',
    iterate fuel self (consume self kwargs) w = Run msgs Exhausted w'
    /\ items w' (key self) = rest.
Proof.
  intros Hc Ha Hd Hn Hl Hi Hf.
  destruct (gets_from_head self _ _ msgs raws (raw_none :: rest) w Hc Ha Hd Hi)
    as [w1 [Hg He]].
  rewrite (iterate_consume_after_gets _ _ _ _ _ _ Hg Hn Hf).
  rewrite (get_pops self _ _ w1 raw_none rest Ha) by now rewrite Hc, He.
  rewrite (call_loads_returns _ _ _ _ Hl).
  eexists. split; [reflexivity |]. now rewrite items_log, items_store.
Qed.

(** Once [next] has raised [StopIteration] the generator is finished: every
    later [next] raises [StopIteration] again and calls nothing, whatever
    the list holds by then. *)
Theorem finished_generator_stays_finished (self : instance) (g g' : generator)
    (w w' : world) :
  next self g w = Returns (StopIteration, g') w' ->
  forall w'', next self g' w'' = Returns (StopIteration, g') w''.
Proof.
  intros H.
  assert (Hl : forall kwargs,
            consume_loop self kwargs w = Returns (StopIteration, g') w' ->
            g' = Finished).
  { intros kwargs. rewrite consume_loop_cases.
    destruct (get_with self kwargs w) as [[] ?|[] ?|?]; congruence. }
  assert (Hg : g' = Finished).
  { destruct g; simpl in H; [now apply (Hl _ H) | now apply (Hl _ H) |].
    unfold ret in H. congruence. }
  now subst.
Qed.

Lemma iterate_not_interrupted self : forall fuel g w,
  ending_of (iterate fuel self g w) <> Failed KeyboardInterrupt.
Proof.
  induction fuel as [|fuel IH]; intros g w; [discriminate |].
  assert (Hl : forall kwargs,
            ending_of
              match consume_loop self kwargs w with
              | Returns (Yield msg, g') w' =>
                  let r := iterate fuel self g' w' in
                  Run (msg :: yielded r) (ending_of r) (final r)
              | Returns (StopIteration, _) w' => Run [] Exhausted w'
              | Raises e w' => Run [] (Failed e) w'
              | Blocks w' => Run [] Stuck w'
              end <> Failed KeyboardInterrupt).
  { intros kwargs. rewrite consume_loop_cases.
    destruct (get_with self kwargs w) as [[] ?|[] ?|?]; simpl;
      try discriminate; apply IH. }
  destruct g; simpl; try apply Hl. discriminate.
Qed.

(** [consume] never lets a [KeyboardInterrupt] of its [get] out: the [next]
    in which [get] raises it prints and ends the sequence, no [next] raises
    it, and no loop over the generator fails with it. *)
Theorem consume_swallows_keyboard_interrupt (self : instance)
    (kwargs : get_kwargs) (w w' : world) :
  get_with self kwargs w = Raises KeyboardInterrupt w' ->
  next self (Suspended kwargs) w
  = Returns (StopIteration, Finished) (World (redis w') (calls w' ++ [PRINT]))
  /\ (forall g w0 e w1,
        next self g w0 = Raises e w1 -> e <> KeyboardInterrupt)
  /\ (forall fuel g w0,
        ending_of (iterate fuel self g w0) <> Failed KeyboardInterrupt).
Proof.
  intros Hg. repeat apply conj.
  - simpl. rewrite consume_loop_cases. now rewrite Hg.
  - intros g w0 e w1.
    assert (Hl : forall kw, consume_loop self kw w0 = Raises e w1 ->
                            e <> KeyboardInterrupt).
    { intros kw. rewrite consume_loop_cases.
      destruct (get_with self kw w0) as [[] ?|[] ?|?]; congruence. }
    destruct g; simpl; try apply Hl. discriminate.
  - apply iterate_not_interrupted.
Qed.

(** *** The worker *)

Lemma pop_end_pop_order c raw raws :
  pop_end c (pop_order c (raw :: raws)) = Some (raw, pop_order c raws).
Proof.
  destruct c; simpl; [reflexivity | now rewrite unsnoc_snoc].
Qed.

Lemma next_yields self kwargs w raw rest msg :
  accepted (default false (kw_block kwargs)) (kw_timeout kwargs) ->
  pop_end (class_of self) (items w (key self)) = Some (raw, rest) ->
  loads (serializer self) raw = inr msg ->
  msg <> PyNone ->
  exists log,
    next self (Suspended kwargs) w
    = Returns (Yield msg, Suspended kwargs)
              (World (store (key self) rest (redis w)) log).
Proof.
  intros Ha Hp Hl Hn. simpl. rewrite consume_loop_cases. unfold get_with.
  rewrite (get_pops _ _ _ _ _ _ Ha Hp), (call_loads_returns _ _ _ _ Hl).
  eexists. destruct msg; [congruence | | |]; reflexivity.
Qed.

Lemma next_stops_on_empty self kwargs w :
  gives_up (default false (kw_block kwargs)) (kw_timeout kwargs) ->
  items w (key self) = [] ->
  exists log,
    next self (Suspended kwargs) w
    = Returns (StopIteration, Finished) (World (redis w) log).
Proof.
  intros Hu He. simpl. rewrite consume_loop_cases. unfold get_with.
  rewrite (get_gives_up_on_empty _ _ _ _ Hu He). now eexists.
Qed.

Lemma wrapper_loop_created fuel self h kwargs w :
  wrapper_loop fuel self h (Created kwargs) w
  = wrapper_loop fuel self h (Suspended (setdefault_block kwargs true)) w.
Proof. now destruct fuel. Qed.

Lemma items_same_lookup w w' k :
  redis w' !! k = redis w !! k -> items w' k = items w k.
Proof. unfold items. now intros ->. Qed.

Section Worker.
Variable self : instance.
Variable kwargs : get_kwargs.
Hypothesis Hu : gives_up (default false (kw_block kwargs)) (kw_timeout kwargs).

Lemma wrapper_loop_drains (h : handler) (msgs : list pyval) :
  (forall msg w, exists w',
      h msg w = Returns tt w'
      /\ redis w' !! key self = redis w !! key self) ->
  forall raws fuel w,
    deserialized (serializer self) msgs raws ->
    Forall (fun msg => msg <> PyNone) msgs ->
    items w (key self) = pop_order (class_of self) raws ->
    (length msgs < fuel)%nat ->
    exists w',
      wrapper_loop fuel self h (Suspended kwargs) w = Some (Returns tt w')
      /\ items w' (key self) = [].
Proof.
  intros Hh. induction msgs as [|msg msgs IH]; intros raws fuel w Hd Hn Hi Hf.
  - inversion Hd; subst. destruct fuel; [simpl in Hf; lia |].
    assert (He : items w (key self) = [])
      by (rewrite Hi; now destruct (class_of self)).
    destruct (next_stops_on_empty self kwargs w Hu He) as [log Hs].
    cbn [wrapper_loop]. rewrite Hs. eexists. split; [reflexivity |].
    now rewrite items_log.
  - inversion Hd as [|? raw ? raws' Hl Hd']; subst.
    inversion Hn as [|? ? Hv Hn']; subst.
    destruct fuel; [simpl in Hf; lia |].
    destruct (next_yields self kwargs w raw (pop_order (class_of self) raws')
                msg (gives_up_accepted _ _ Hu)) as [log Hy];
      [rewrite Hi; apply pop_end_pop_order | assumption | assumption |].
    cbn [wrapper_loop]. rewrite Hy.
    match goal with |- context [h msg ?w1] =>
      destruct (Hh msg w1) as [w2 [Hr Hk]]; rewrite Hr;
      apply (IH raws' fuel w2 Hd' Hn');
      [rewrite (items_same_lookup _ _ _ Hk); apply items_store
      | simpl in Hf; lia] end.
Qed.

Lemma wrapper_loop_forwards (to : instance) (msgs : list pyval) :
  key to <> key self ->
  forall raws raws' fuel w,
    deserialized (serializer self) msgs raws ->
    serialized (serializer to) msgs raws' ->
    Forall (fun msg => msg <> PyNone) msgs ->
    items w (key self) = pop_order (class_of self) raws ->
    (length msgs < fuel)%nat ->
    exists w',
      wrapper_loop fuel self (forward to) (Suspended kwargs) w
      = Some (Returns tt w')
      /\ items w' (key self) = []
      /\ items w' (key to) = items w (key to) ++ raws'.
Proof.
  intros Hne.
  induction msgs as [|msg msgs IH]; intros raws raws' fuel w Hd Hs Hn Hi Hf.
  - inversion Hd; inversion Hs; subst. destruct fuel; [simpl in Hf; lia |].
    assert (He : items w (key self) = [])
      by (rewrite Hi; now destruct (class_of self)).
    destruct (next_stops_on_empty self kwargs w Hu He) as [log Hst].
    cbn [wrapper_loop]. rewrite Hst. eexists. split; [reflexivity |].
    rewrite !items_log, app_nil_r. now split.
  - inversion Hd as [|? raw ? rs Hl Hd']; subst.
    inversion Hs as [|? raw' ? rs' Hdu Hs']; subst.
    inversion Hn as [|? ? Hv Hn']; subst.
    destruct fuel; [simpl in Hf; lia |].
    destruct (next_yields self kwargs w raw (pop_order (class_of self) rs)
                msg (gives_up_accepted _ _ Hu)) as [log Hy];
      [rewrite Hi; apply pop_end_pop_order | assumption | assumption |].
    cbn [wrapper_loop]. rewrite Hy. unfold forward at 1.
    match goal with |- context [put to [msg] ?w1] =>
      destruct (put_serialized to [msg] [raw'] w1) as [w2 [Hp Hto]];
        [repeat constructor; assumption |];
      pose proof (preserves_put (key self) to [msg]
                    (fun H => Hne (eq_sym H)) w1) as Hk;
      rewrite Hp in Hk |- *; cbn [world_of] in Hk end.
    destruct (IH rs rs' fuel w2 Hd' Hs' Hn') as [w' [Hw [He Ht]]].
    + rewrite (items_same_lookup _ _ _ Hk). apply items_store.
    + simpl in Hf. lia.
    + exists w'. split; [exact Hw |]. split; [exact He |].
      rewrite Ht, Hto. unfold items at 1. cbn [redis].
      rewrite (store_other (key to) (key self)) by exact Hne.
      fold (items w (key to)). now rewrite <- app_assoc.
Qed.
End Worker.

Lemma gives_up_with_default kwargs :
  gives_up (default true (kw_block kwargs)) (kw_timeout kwargs) ->
  gives_up (default false (kw_block (setdefault_block kwargs true)))
           (kw_timeout (setdefault_block kwargs true)).
Proof. now destruct kwargs as [[b|] t]. Qed.

(** A worker drains the queue and returns: when the function returns on
    every message and leaves the queue's key alone, and [get] gives up on
    an empty list, the wrapper returns with the list empty, within one turn
    more than the list has messages.  The wrapper is the same whether
    [worker] is given the function or is called with keywords first and
    then applied to it. *)
Theorem worker_drains_the_queue (self : instance) (kwargs : get_kwargs)
    (h : handler) (msgs : list pyval) (raws : list bytes) (w : world)
    (fuel : nat) :
  gives_up (default true (kw_block kwargs)) (kw_timeout kwargs) ->
  (forall msg w0, exists w1,
      h msg w0 = Returns tt w1
      /\ redis w1 !! key self = redis w0 !! key self) ->
  deserialized (serializer self) msgs raws ->
  Forall (fun msg => msg <> PyNone) msgs ->
  items w (key self) = pop_order (class_of self) raws ->
  (length msgs < fuel)%nat ->
  exists run apply w',
    worker self [h] kwargs = inr (Wrapper run)
    /\ worker self [] kwargs = inr (Decorator apply)
    /\ apply h = run
    /\ run fuel w = Some (Returns tt w')
    /\ items w' (key self) = [].
Proof.
  intros Hu Hh Hd Hn Hi Hf.
  destruct (wrapper_loop_drains self _ (gives_up_with_default _ Hu) h msgs Hh
              raws fuel w Hd Hn Hi Hf) as [w' [Hw He]].
  exists (decorator self kwargs h), (decorator self kwargs), w'.
  repeat split; try assumption.
  unfold decorator, consume. now rewrite wrapper_loop_created.
Qed.

(** A worker that forwards to a queue with another name moves the messages
    over: the wrapper returns with its own list empty and the payloads of
    the messages appended to the other list in the order they were popped,
    each once. *)
Theorem worker_forwards_in_order (self to : instance) (kwargs : get_kwargs)
    (msgs : list pyval) (raws raws' : list bytes) (w : world) (fuel : nat) :
  name to <> name self ->
  gives_up (default true (kw_block kwargs)) (kw_timeout kwargs) ->
  deserialized (serializer self) msgs raws ->
  serialized (serializer to) msgs raws' ->
  Forall (fun msg => msg <> PyNone) msgs ->
  items w (key self) = pop_order (class_of self) raws ->
  (length msgs < fuel)%nat ->
  exists run w',
    worker self [forward to] kwargs = inr (Wrapper run)
    /\ run fuel w = Some (Returns tt w')
    /\ items w' (key self) = []
    /\ items w' (key to) = items w (key to) ++ raws'.
Proof.
  intros Hne Hu Hd Hs Hn Hi Hf.
  assert (Hk : key to <> key self) by (intros H; now apply Hne, key_inj).
  destruct (wrapper_loop_forwards self _ (gives_up_with_default _ Hu) to msgs
              Hk raws raws' fuel w Hd Hs Hn Hi Hf) as [w' [Hw [He Ht]]].
  exists (decorator self kwargs (forward to)), w'.
  repeat split; try assumption.
  unfold decorator, consume. now rewrite wrapper_loop_created.
Qed.

(** A message is handed over once and never put back: when the function
    raises on a message, [KeyboardInterrupt] included, the wrapper raises
    the same exception, and the message is no longer in the list. *)
Theorem worker_loses_message_when_function_raises (self : instance)
    (kwargs : get_kwargs) (h : handler) (w : world) (raw : bytes)
    (rest : list bytes) (msg : pyval) (e : exn) (fuel : nat) :
  accepted (default true (kw_block kwargs)) (kw_timeout kwargs) ->
  pop_end (class_of self) (items w (key self)) = Some (raw, rest) ->
  loads (serializer self) raw = inr msg ->
  msg <> PyNone ->
  (forall w0, exists w1,
      h msg w0 = Raises e w1
      /\ redis w1 !! key self = redis w0 !! key self) ->
  exists run w',
    worker self [h] kwargs = inr (Wrapper run)
    /\ run (S fuel) w = Some (Raises e w')
    /\ items w' (key self) = rest.
Proof.
  intros Ha Hp Hl Hn Hh.
  assert (Ha' : accepted
                  (default false (kw_block (setdefault_block kwargs true)))
                  (kw_timeout (setdefault_block kwargs true)))
    by now destruct kwargs as [[b|] t].
  destruct (next_yields self _ w raw rest msg Ha' Hp Hl Hn) as [log Hy].
  eexists. 
  match type of Hy with _ = Returns _ ?w1 =>
    destruct (Hh w1) as [w2 [Hr Hk]] end.
  exists w2. split; [reflexivity |].
  unfold decorator, consume. rewrite wrapper_loop_created.
  cbn [wrapper_loop]. rewrite Hy, Hr. split; [reflexivity |].
  rewrite (items_same_lookup _ _ _ Hk). apply items_store.
Qed.

(** *** After [clear] *)

(** [clear] discards what is pending: after it a non-blocking [get] returns
    [None], and a [consume] whose [get] gives up on an empty list yields
    nothing and ends at its first turn. *)
Theorem nothing_is_delivered_after_clear (self : instance)
    (kwargs : get_kwargs) (w : world) (fuel : nat) :
  gives_up (default true (kw_block kwargs)) (kw_timeout kwargs) ->
  exists w1 w2 w3,
    clear self w = Returns tt w1
    /\ get self false None w1 = Returns PyNone w2
    /\ iterate (S fuel) self (consume self kwargs) w1 = Run [] Exhausted w3.
Proof.
  intros Hu.
  assert (He : items (World (delete (key self) (redis w))
                            (issue (DEL (key self)) w)) (key self) = []).
  { unfold items. cbn [redis]. now rewrite lookup_delete_eq. }
  eexists. eexists. eexists. split; [reflexivity |]. split.
  - apply get_gives_up_on_empty; [now left | exact He].
  - assert (Hn : Forall (fun msg => msg <> PyNone) []) by constructor.
    assert (Hf : (length (@nil pyval) < S fuel)%nat) by (simpl; lia).
    rewrite (iterate_consume_after_gets self kwargs [] (S fuel) _ _
               eq_refl Hn Hf).
    now rewrite (get_gives_up_on_empty _ _ _ _ Hu He).
Qed.

(** *** The further properties on concrete queues *)

Lemma other_keys_are_left_alone_example :
  "hotqueue:archive" <> key jobs
  /\ preserves "hotqueue:archive" (put jobs [msg_x; msg_y]).
Proof.
  assert (Hne : "hotqueue:archive" <> key jobs) by discriminate.
  split; [exact Hne |].
  exact (proj1 (proj2 (proj2 (proj2
           (other_keys_are_left_alone jobs "hotqueue:archive" Hne))))
           [msg_x; msg_y]).
Defined.

Lemma get_loses_message_when_loads_raises_example :
  (accepted false None
   /\ pop_end (class_of inbox) (items mismatched (key inbox))
      = Some (list_byte_of_string "x", [])
   /\ loads (serializer inbox) (list_byte_of_string "x")
      = inl (Exception "ValueError"))
  /\ exists w',
       get inbox false None mismatched = Raises (Exception "ValueError") w'
       /\ items w' (key inbox) = [].
Proof.
  assert (Ha : accepted false None) by (left; reflexivity).
  split; [split; [exact Ha | split; reflexivity] |].
  exact (get_loses_message_when_loads_raises inbox false None mismatched
           (list_byte_of_string "x") [] (Exception "ValueError")
           Ha eq_refl eq_refl).
Defined.

Lemma blocking_get_on_nonempty_list_example :
  (items loaded (key jobs) <> [] /\ 0 <= default 0 (Some 5))
  /\ seen (get jobs true (Some 5) loaded) = seen (get jobs false None loaded).
Proof.
  assert (Hne : items loaded (key jobs) <> []) by discriminate.
  assert (Ht : 0 <= default 0 (Some 5)) by (simpl; lia).
  split; [split; assumption |].
  exact (blocking_get_on_nonempty_list jobs (Some 5) None loaded Hne Ht).
Defined.

Lemma get_then_push_back_restores_example :
  (accepted false None
   /\ pop_end (class_of jobs) (items loaded (key jobs))
      = Some (list_byte_of_string "x", [list_byte_of_string "y"])
   /\ loads (serializer jobs) (list_byte_of_string "x") = inr msg_x
   /\ dumps (serializer jobs) msg_x = inr (list_byte_of_string "x"))
  /\ exists w1 w2,
       get jobs false None loaded = Returns msg_x w1
       /\ put_head jobs [msg_x] w1 = Returns tt w2
       /\ items w2 (key jobs) = items loaded (key jobs).
Proof.
  assert (Ha : accepted false None) by (left; reflexivity).
  split; [split; [exact Ha | repeat split] |].
  exact (get_then_push_back_restores jobs false None loaded
           (list_byte_of_string "x") [list_byte_of_string "y"] msg_x
           Ha eq_refl eq_refl eq_refl).
Defined.

Lemma len_grows_by_messages_put_example :
  put_head jobs [msg_y; msg_x] loaded
  = Returns tt (world_of (put_head jobs [msg_y; msg_x] loaded))
  /\ exists wa wb,
       __len__ jobs loaded = Returns 2 wa
       /\ __len__ jobs (world_of (put_head jobs [msg_y; msg_x] loaded))
          = Returns 4 wb.
Proof.
  split; [reflexivity |].
  destruct (len_grows_by_messages_put jobs [msg_y; msg_x] loaded
              (world_of (put_head jobs [msg_y; msg_x] loaded))
              (or_intror eq_refl)) as [n [wa [wb [H1 H2]]]].
  exists wa, wb.
  assert (Hn : n = 2) by (unfold __len__, llen in H1; now injection H1 as <-).
  subst n. now split.
Defined.

Lemma put_pushes_one_message_at_a_time_example :
  serialized (serializer jobs) [msg_x; msg_y]
    [list_byte_of_string "x"; list_byte_of_string "y"]
  /\ calls (world_of (put jobs [msg_x; msg_y] fresh))
     = [DUMPS msg_x; RPUSH "hotqueue:jobs" (list_byte_of_string "x");
        DUMPS msg_y; RPUSH "hotqueue:jobs" (list_byte_of_string "y")].
Proof.
  assert (Hs : serialized (serializer jobs) [msg_x; msg_y]
                 [list_byte_of_string "x"; list_byte_of_string "y"])
    by (repeat constructor).
  split; [exact Hs |].
  exact (proj1 (put_pushes_one_message_at_a_time jobs [msg_x; msg_y]
                  [list_byte_of_string "x"; list_byte_of_string "y"]
                  fresh Hs)).
Defined.

Lemma producer_and_consumer_instances_example :
  (name jobs = name (Instance HotStack "jobs" text)
   /\ items fresh (key jobs) = []
   /\ accepted false None)
  /\ exists w1 w2,
       put jobs [msg_x; msg_y] fresh = Returns tt w1
       /\ gets (Instance HotStack "jobs" text) false None 2 w1
          = Returns [msg_y; msg_x] w2
       /\ items w2 "hotqueue:jobs" = [].
Proof.
  assert (Ha : accepted false None) by (left; reflexivity).
  assert (Hr : Forall (fun msg => exists raw,
                         dumps (serializer jobs) msg = inr raw
                         /\ loads text raw = inr msg) [msg_x; msg_y])
    by (repeat (constructor; [eexists; split; reflexivity |]); constructor).
  split; [split; [reflexivity | split; [reflexivity | exact Ha]] |].
  exact (producer_and_consumer_instances jobs (Instance HotStack "jobs" text)
           [msg_x; msg_y] fresh false None eq_refl eq_refl Hr Ha).
Defined.

Lemma lifo_put_head_then_get_in_order_example :
  (class_of undo = HotStack
   /\ items fresh (key undo) = []
   /\ round_trips (serializer undo) [msg_x; msg_y]
   /\ accepted false None)
  /\ exists w1 w2,
       put_head undo [msg_x; msg_y] fresh = Returns tt w1
       /\ gets undo false None 2 w1 = Returns [msg_x; msg_y] w2
       /\ items w2 (key undo) = [].
Proof.
  assert (Ha : accepted false None) by (left; reflexivity).
  assert (Hr : round_trips (serializer undo) [msg_x; msg_y])
    by run_round_trips.
  split; [split; [reflexivity | split; [reflexivity | split; assumption]] |].
  exact (lifo_put_head_then_get_in_order undo [msg_x; msg_y] fresh false None
           eq_refl eq_refl Hr Ha).
Defined.

Lemma consume_drains_the_queue_example :
  exists w',
    iterate 3 jobs (consume jobs (Kwargs (Some false) None)) loaded
    = Run [msg_x; msg_y] Exhausted w'
    /\ items w' (key jobs) = [].
Proof.
  apply (consume_drains_the_queue jobs (Kwargs (Some false) None)
           [msg_x; msg_y]
           [list_byte_of_string "x"; list_byte_of_string "y"] loaded 3%nat).
  - left. reflexivity.
  - repeat constructor.
  - repeat constructor; discriminate.
  - reflexivity.
  - simpl. lia.
Defined.

Lemma consume_without_timeout_waits_example :
  exists w',
    iterate 3 jobs (consume jobs (Kwargs None None)) loaded
    = Run [msg_x; msg_y] Stuck w'
    /\ items w' (key jobs) = [].
Proof.
  apply (consume_without_timeout_waits jobs (Kwargs None None)
           [msg_x; msg_y]
           [list_byte_of_string "x"; list_byte_of_string "y"] loaded 3%nat).
  - reflexivity.
  - reflexivity.
  - repeat constructor.
  - repeat constructor; discriminate.
  - reflexivity.
  - simpl. lia.
Defined.

Lemma none_message_ends_consume_example :
  exists w',
    iterate 2 inbox (consume inbox (Kwargs (Some false) None)) mixed
    = Run [PyStr "a"] Exhausted w'
    /\ items w' (key inbox) = [list_byte_of_string "Sb"].
Proof.
  apply (none_message_ends_consume inbox (Kwargs (Some false) None)
           [PyStr "a"] [list_byte_of_string "Sa"] (list_byte_of_string "N")
           [list_byte_of_string "Sb"] mixed 2%nat).
  - reflexivity.
  - left. reflexivity.
  - repeat constructor.
  - repeat constructor; discriminate.
  - reflexivity.
  - reflexivity.
  - simpl. lia.
Defined.

Lemma finished_generator_stays_finished_example :
  next jobs (consume jobs (Kwargs (Some false) None)) fresh
  = Returns (StopIteration, Finished) (World ∅ [LPOP "hotqueue:jobs"])
  /\ next jobs Finished loaded = Returns (StopIteration, Finished) loaded.
Proof.
  split; [reflexivity |].
  exact (finished_generator_stays_finished jobs
           (consume jobs (Kwargs (Some false) None)) Finished fresh
           (World ∅ [LPOP "hotqueue:jobs"]) eq_refl loaded).
Defined.

Lemma consume_swallows_keyboard_interrupt_example :
  get_with console (Kwargs (Some false) None) typed
  = Raises KeyboardInterrupt
      (world_of (get_with console (Kwargs (Some false) None) typed))
  /\ exists w',
       next console (Suspended (Kwargs (Some false) None)) typed
       = Returns (StopIteration, Finished) w'.
Proof.
  split; [reflexivity |]. eexists.
  exact (proj1 (consume_swallows_keyboard_interrupt console
                  (Kwargs (Some false) None) typed
                  (world_of (get_with console (Kwargs (Some false) None) typed))
                  eq_refl)).
Defined.

Lemma worker_drains_the_queue_example :
  exists run apply w',
    worker jobs [printer] (Kwargs None (Some 1)) = inr (Wrapper run)
    /\ worker jobs [] (Kwargs None (Some 1)) = inr (Decorator apply)
    /\ apply printer = run
    /\ run 3%nat loaded = Some (Returns tt w')
    /\ items w' (key jobs) = [].
Proof.
  apply (worker_drains_the_queue jobs (Kwargs None (Some 1)) printer
           [msg_x; msg_y]
           [list_byte_of_string "x"; list_byte_of_string "y"] loaded 3%nat).
  - right. exists 1. split; [reflexivity | lia].
  - intros msg w0. eexists. split; reflexivity.
  - repeat constructor.
  - repeat constructor; discriminate.
  - reflexivity.
  - simpl. lia.
Defined.

Lemma worker_forwards_in_order_example :
  exists run w',
    worker jobs [forward archive] (Kwargs (Some false) None)
    = inr (Wrapper run)
    /\ run 3%nat loaded = Some (Returns tt w')
    /\ items w' (key jobs) = []
    /\ items w' (key archive)
       = [list_byte_of_string "x"; list_byte_of_string "y"].
Proof.
  apply (worker_forwards_in_order jobs archive (Kwargs (Some false) None)
           [msg_x; msg_y]
           [list_byte_of_string "x"; list_byte_of_string "y"]
           [list_byte_of_string "x"; list_byte_of_string "y"] loaded 3%nat).
  - discriminate.
  - left. reflexivity.
  - repeat constructor.
  - repeat constructor.
  - repeat constructor; discriminate.
  - reflexivity.
  - simpl. lia.
Defined.

Lemma worker_loses_message_when_function_raises_example :
  exists run w',
    worker jobs [failing KeyboardInterrupt] (Kwargs (Some false) None)
    = inr (Wrapper run)
    /\ run 1%nat loaded = Some (Raises KeyboardInterrupt w')
    /\ items w' (key jobs) = [list_byte_of_string "y"].
Proof.
  apply (worker_loses_message_when_function_raises jobs
           (Kwargs (Some false) None) (failing KeyboardInterrupt) loaded
           (list_byte_of_string "x") [list_byte_of_string "y"] msg_x
           KeyboardInterrupt 0%nat).
  - left. reflexivity.
  - reflexivity.
  - reflexivity.
  - discriminate.
  - intros w0. exists w0. split; reflexivity.
Defined.

Lemma nothing_is_delivered_after_clear_example :
  exists w1 w2 w3,
    clear jobs loaded = Returns tt w1
    /\ get jobs false None w1 = Returns PyNone w2
    /\ iterate 1 jobs (consume jobs (Kwargs None (Some 1))) w1
       = Run [] Exhausted w3.
Proof.
  apply (nothing_is_delivered_after_clear jobs (Kwargs None (Some 1)) loaded
           0%nat).
  right. exists 1. split; [reflexivity | lia].
Defined.
